(** * TooLoo.ai vector store: a model of [src/mlops/vectordb/connector.py]

    The development follows the Python class [VectorDBConnector]:
    - IEEE-754 values: Python floats (binary64) and numpy [float32] cells;
    - the numpy calls the connector makes ([np.array], [tobytes],
      [np.frombuffer], [np.dot], [np.linalg.norm]);
    - [list.sort] and slicing as CPython runs them;
    - the SQLite table [vectors] with its primary key [(collection, id)];
    - the connector itself: [_initialize_client], [upsert], [query].

    Conventions.  A Python exception is the result [Raise]; a call handed to
    the remote Pinecone service is the result [Delegated].  Output written
    with [print] and storage I/O failures of SQLite are not part of the model.
    The [metadata] column holds the JSON document that [json.dumps] writes and
    [json.loads] reads back; it is kept as the JSON value it denotes. *)

From Stdlib Require Import ZArith List String Bool Lia Permutation Sorted.
From Stdlib Require Import Floats.SpecFloat.
From coqutil Require Import Byte Word.LittleEndianList.
Import ListNotations.

Local Open Scope Z_scope.
Local Open Scope list_scope.

(** ** IEEE-754 values *)

(** A Python [float] is a binary64 value. *)
Module Float64.
Definition prec : Z := 53.
Definition emax : Z := 1024.

Definition t := spec_float.

(** Rounding of an arbitrary finite value to binary64. *)
Definition round (x : spec_float) : t :=
  match x with
  | S754_finite s m e => binary_normalize prec emax (cond_Zopp s (Zpos m)) e s
  | _ => x
  end.

Definition of_Z (z : Z) : t := binary_normalize prec emax z 0 false.

(** The literal [n / d] for exactly representable [n] and [d], correctly
    rounded: [decimal 95 100] is Python's [0.95]. *)
Definition decimal (n d : Z) : t := SFdiv prec emax (of_Z n) (of_Z d).

(** Python's [a < b] on floats: false as soon as one side is NaN. *)
Definition ltb (a b : t) : bool := SFltb a b.

Definition is_nan (a : t) : bool :=
  match a with S754_nan => true | _ => false end.
End Float64.

(** A numpy [float32] cell is kept as the 32 bits it occupies in memory. *)
Module Float32.
Definition prec : Z := 24.
Definition emax : Z := 128.

Definition t := Z.

Definition sign_bit (s : bool) : Z := if s then 2 ^ 31 else 0.

(** Layout: 1 sign bit, 8 exponent bits (bias 127), 23 fraction bits.
    NaN payloads are not tracked: every NaN is written as quiet NaN. *)
Definition to_bits (x : spec_float) : t :=
  match x with
  | S754_zero s => sign_bit s
  | S754_infinity s => sign_bit s + 255 * 2 ^ 23
  | S754_nan => 255 * 2 ^ 23 + 2 ^ 22
  | S754_finite s m e =>
      if Zpos m <? 2 ^ 23
      then sign_bit s + Zpos m mod 2 ^ 23
      else sign_bit s + ((e + 150) mod 256) * 2 ^ 23 + Zpos m mod 2 ^ 23
  end.

Definition of_bits (b : t) : spec_float :=
  let w := b mod 2 ^ 32 in
  let s := 2 ^ 31 <=? w in
  let ex := (w / 2 ^ 23) mod 256 in
  let man := w mod 2 ^ 23 in
  if ex =? 0 then
    match man with
    | Zpos p => S754_finite s p (-149)
    | _ => S754_zero s
    end
  else if ex =? 255 then
    if man =? 0 then S754_infinity s else S754_nan
  else
    match man + 2 ^ 23 with
    | Zpos p => S754_finite s p (ex - 150)
    | _ => S754_nan
    end.

(** Conversion of a Python float to a float32 cell (round to nearest even,
    overflow to infinity), as [np.array(..., dtype=np.float32)] does. *)
Definition of_float64 (x : Float64.t) : t :=
  to_bits
    match x with
    | S754_finite s m e => binary_normalize prec emax (cond_Zopp s (Zpos m)) e s
    | _ => x
    end.

(** [float(x)] for a float32 scalar: exact widening to binary64. *)
Definition to_float64 (x : t) : Float64.t := Float64.round (of_bits x).

Definition add (a b : t) : t := to_bits (SFadd prec emax (of_bits a) (of_bits b)).
Definition mul (a b : t) : t := to_bits (SFmul prec emax (of_bits a) (of_bits b)).
Definition div (a b : t) : t := to_bits (SFdiv prec emax (of_bits a) (of_bits b)).
Definition sqrt (a : t) : t := to_bits (SFsqrt prec emax (of_bits a)).

Definition zero : t := 0.
End Float32.

(** ** Python results *)

Inductive exception := ValueError | AttributeError.

(** Pinecone calls made through a live client; their outcome is the remote
    service's and is not modelled further. *)
Inductive remote_call :=
| IndexUpsert (api_key index : string)
| IndexQuery (api_key index : string) (top_k : Z).

Inductive result (A : Type) :=
| Return (a : A)
| Raise (e : exception)
| Delegated (call : remote_call).

Arguments Return {A} a.
Arguments Raise {A} e.
Arguments Delegated {A} call.

Definition bind {A B : Type} (m : result A) (k : A -> result B) : result B :=
  match m with
  | Return a => k a
  | Raise e => Raise e
  | Delegated c => Delegated c
  end.

Notation "x <- m ;; k" := (bind m (fun x => k))
  (at level 61, m at next level, right associativity).

(** A [for] loop that appends one computed item per element and stops at the
    first exception. *)
Fixpoint for_each {A B : Type} (body : A -> result B) (l : list A) : result (list B) :=
  match l with
  | [] => Return []
  | a :: l' =>
      b <- body a ;;
      bs <- for_each body l' ;;
      Return (b :: bs)
  end.

(** ** numpy *)

Definition ndarray := list Float32.t.

(** [np.array(values, dtype=np.float32)] *)
Definition np_array_float32 (values : list Float64.t) : ndarray :=
  map Float32.of_float64 values.

(** [a.tobytes()]: the cells in order, four bytes each, least significant
    byte first. *)
Definition tobytes (a : ndarray) : list byte := flat_map (le_split 4) a.

(** [np.frombuffer(buf, dtype=np.float32)]: [ValueError] unless the buffer
    is a whole number of four-byte cells. *)
Fixpoint frombuffer (buf : list byte) : result ndarray :=
  match buf with
  | [] => Return []
  | b0 :: b1 :: b2 :: b3 :: rest =>
      cells <- frombuffer rest ;;
      Return (le_combine [b0; b1; b2; b3] :: cells)
  | _ => Raise ValueError
  end.

(** Sum of products in float32, accumulated from the left from [+0.0].
    numpy leaves the order of the additions to its BLAS kernel; each product
    and each partial sum is rounded to float32 in any case. *)
Definition dot_kernel (a b : ndarray) : Float32.t :=
  fold_left (fun acc xy => Float32.add acc (Float32.mul (fst xy) (snd xy)))
            (combine a b) Float32.zero.

(** [np.dot(a, b)] on one-dimensional arrays: [ValueError] when the shapes
    are not aligned. *)
Definition np_dot (a b : ndarray) : result Float32.t :=
  if Nat.eqb (List.length a) (List.length b) then Return (dot_kernel a b)
  else Raise ValueError.

(** [np.linalg.norm(a)] on a one-dimensional float32 array:
    [sqrt(a.dot(a))], in float32. *)
Definition np_linalg_norm (a : ndarray) : Float32.t :=
  Float32.sqrt (dot_kernel a a).

(** ** Python lists: [list.sort] and slices *)

(** [list.sort] as CPython's [listsort] runs it on a list it handles as one
    run, which is every list shorter than 64 items: find the leading natural
    run ([count_run]), reverse it when it is strictly descending, insert the
    remaining items by binary insertion ([binarysort]).  With [reverse=True]
    the list is reversed before and after.  [lt] is the comparison [x < y] of
    the sort keys, the only one the algorithm makes.  On longer lists CPython
    merges several such runs: the result is still a permutation of the list,
    and whenever [lt] is a strict weak order on the keys it is the same list
    as here, the stable sorted arrangement being unique. *)
Section ListSort.
Context {A : Type}.
Variable lt : A -> A -> bool.

Fixpoint run_ascending (prev : A) (l : list A) : nat :=
  match l with
  | [] => 0%nat
  | x :: l' => if lt x prev then 0%nat else S (run_ascending x l')
  end.

Fixpoint run_descending (prev : A) (l : list A) : nat :=
  match l with
  | [] => 0%nat
  | x :: l' => if lt x prev then S (run_descending x l') else 0%nat
  end.

(** Length of the leading run, and whether it is strictly descending. *)
Definition count_run (l : list A) : nat * bool :=
  match l with
  | [] => (0%nat, false)
  | [_] => (1%nat, false)
  | x :: y :: l' =>
      if lt y x then (S (S (run_descending y l')), true)
      else (S (S (run_ascending y l')), false)
  end.

(** The search loop of [binarysort]: the insertion point of [pivot] in
    [sorted], between [l] and [r]. *)
Fixpoint bisect (fuel : nat) (pivot : A) (sorted : list A) (l r : nat) : nat :=
  match fuel with
  | O => l
  | S fuel' =>
      if Nat.ltb l r then
        let p := (l + (r - l) / 2)%nat in
        if lt pivot (nth p sorted pivot)
        then bisect fuel' pivot sorted l p
        else bisect fuel' pivot sorted (S p) r
      else l
  end.

Definition binary_insert (sorted : list A) (pivot : A) : list A :=
  let p := bisect (List.length sorted) pivot sorted 0 (List.length sorted) in
  firstn p sorted ++ pivot :: skipn p sorted.

Definition binarysort (run rest : list A) : list A :=
  fold_left binary_insert rest run.

Definition list_sort (reverse : bool) (l : list A) : list A :=
  match l with
  | [] | [_] => l
  | _ =>
      let l1 := if reverse then rev l else l in
      let '(n, descending) := count_run l1 in
      let run := firstn n l1 in
      let run := if descending then rev run else run in
      let sorted := binarysort run (skipn n l1) in
      if reverse then rev sorted else sorted
  end.

(** The reference the properties compare [list_sort] with: insertion of each
    item after every item that is not greater, which is the place a stable
    sort gives it. *)
Fixpoint insert_sorted (x : A) (l : list A) : list A :=
  match l with
  | [] => [x]
  | y :: l' => if lt x y then x :: l else y :: insert_sorted x l'
  end.

Definition insertion_sort (l : list A) : list A :=
  fold_left (fun acc x => insert_sorted x acc) l [].

(** [not_greater a b]: [b < a] does not hold. *)
Definition not_greater (a b : A) : Prop := lt b a = false.

(** Neither key is smaller: the two items tie. *)
Definition tie (a b : A) : bool := negb (lt a b) && negb (lt b a).
End ListSort.

(** [l[:k]]: a negative [k] counts from the end. *)
Definition slice_to {A : Type} (l : list A) (k : Z) : list A :=
  if 0 <=? k then firstn (Z.to_nat k) l
  else firstn (List.length l - Z.to_nat (- k)) l.

(** ** Data model *)

(** JSON documents, as [json.dumps] accepts and [json.loads] returns them. *)
Unset Elimination Schemes.
Inductive json :=
| JNull
| JBool (b : bool)
| JNumber (x : Float64.t)
| JString (s : string)
| JList (items : list json)
| JDict (items : list (string * json)).
Set Elimination Schemes.

(** One element of the [vectors] argument of [upsert]: a dict with the keys
    ['id'] and ['values'], and optionally ['metadata']. *)
Record vec := {
  vec_id : string;
  vec_values : list Float64.t;
  vec_metadata : option json
}.

(** One row of the table [vectors]. *)
Record row := {
  row_collection : string;
  row_id : string;
  row_vector : list byte;
  row_metadata : json
}.

(** The table in the order a scan returns its rows.  SQL leaves the order of
    a [SELECT] without [ORDER BY] open; here a replaced row leaves its place
    and the new row goes last. *)
Definition table := list row.

Definition same_key (collection id : string) (r : row) : bool :=
  String.eqb (row_collection r) collection && String.eqb (row_id r) id.

(** [INSERT OR REPLACE INTO vectors ... VALUES (?, ?, ?, ?)] under
    [PRIMARY KEY (collection, id)]. *)
Definition insert_or_replace (t : table) (r : row) : table :=
  filter (fun x => negb (same_key (row_collection r) (row_id r) x)) t ++ [r].

(** [SELECT id, vector, metadata FROM vectors WHERE collection=?] *)
Definition select_collection (t : table) (collection : string) : table :=
  filter (fun x => String.eqb (row_collection x) collection) t.

(** The SQLite database files, by path; a file that does not exist yet reads
    as the empty table, which is what [CREATE TABLE IF NOT EXISTS] makes of
    it. *)
Definition databases := string -> table.

Definition write_db (dbs : databases) (path : string) (t : table) : databases :=
  fun p => if String.eqb p path then t else dbs p.

(** One element of the list [query] returns. *)
Record match_result := {
  res_id : string;
  res_score : Float64.t;
  res_metadata : json
}.

(** ** The connector *)

(** The keys of the [config] dict the connector reads. *)
Record Config := {
  cfg_api_key : option string;
  cfg_url : option string;
  cfg_db_path : option string
}.

Definition empty_config : Config :=
  {| cfg_api_key := None; cfg_url := None; cfg_db_path := None |}.

(** What construction reads from the process: the environment variable and
    whether the client libraries can be imported. *)
Record Environment := {
  PINECONE_API_KEY : option string;
  pinecone_installed : bool;
  weaviate_installed : bool
}.

Inductive Client :=
| pinecone_simulated
| Pinecone (api_key : string)
| weaviate_simulated
| WeaviateClient (url : string) (api_key : option string)
| sqlite_connection (db_path : string).

Record VectorDBConnector := {
  provider : string;
  config : Config;
  client : Client
}.

(** Truth value of an optional string: [None] and [''] are false. *)
Definition truthy (o : option string) : bool :=
  match o with
  | Some s => negb (String.eqb s "")
  | None => false
  end.

(** [a or b] *)
Definition py_or (a b : option string) : option string :=
  if truthy a then a else b.

(** [self.config.get("db_path", "./vectordb.sqlite")] *)
Definition db_path (config : Config) : string :=
  match cfg_db_path config with
  | Some path => path
  | None => "./vectordb.sqlite"
  end.

Definition _initialize_client (provider : string) (config : Config)
    (env : Environment) : Client :=
  if String.eqb provider "pinecone" then
    if pinecone_installed env then
      match py_or (cfg_api_key config) (PINECONE_API_KEY env) with
      | Some (String c s) => Pinecone (String c s)
      | _ => pinecone_simulated
      end
    else pinecone_simulated
  else if String.eqb provider "weaviate" then
    if weaviate_installed env then
      match cfg_url config with
      | Some (String c s) =>
          WeaviateClient (String c s)
            (if truthy (cfg_api_key config) then cfg_api_key config else None)
      | _ => weaviate_simulated
      end
    else weaviate_simulated
  else
    sqlite_connection (db_path config).

(** [VectorDBConnector(provider, config)]; [config or {}] *)
Definition __init__ (provider : string) (config : option Config)
    (env : Environment) : VectorDBConnector :=
  let config := match config with Some c => c | None => empty_config end in
  {| provider := provider;
     config := config;
     client := _initialize_client provider config env |}.

(** The row [upsert] writes for one element of [vectors]. *)
Definition row_of_vec (collection_name : string) (v : vec) : row :=
  {| row_collection := collection_name;
     row_id := vec_id v;
     row_vector := tobytes (np_array_float32 (vec_values v));
     row_metadata := match vec_metadata v with Some m => m | None => JDict [] end |}.

Definition upsert (self : VectorDBConnector) (dbs : databases)
    (collection_name : string) (vectors : list vec) : result bool * databases :=
  if String.eqb (provider self) "local" then
    match client self with
    | sqlite_connection path =>
        let t :=
          fold_left (fun t v => insert_or_replace t (row_of_vec collection_name v))
                    vectors (dbs path) in
        (Return true, write_db dbs path t)
    | _ => (Raise AttributeError, dbs)
    end
  else
    match String.eqb (provider self) "pinecone", client self with
    | true, Pinecone key => (Delegated (IndexUpsert key collection_name), dbs)
    | true, pinecone_simulated => (Return true, dbs)
    | true, _ => (Raise AttributeError, dbs)
    | false, _ => (Return true, dbs)
    end.

(** Cosine similarity as [query] computes it, on float32 scalars. *)
Definition cosine_score (query_vec db_vec : ndarray) : result Float32.t :=
  d <- np_dot query_vec db_vec ;;
  Return (Float32.div d (Float32.mul (np_linalg_norm query_vec) (np_linalg_norm db_vec))).

(** The body of the loop over [rows]. *)
Definition score_row (query_vec : ndarray) (r : row) : result match_result :=
  db_vec <- frombuffer (row_vector r) ;;
  score <- cosine_score query_vec db_vec ;;
  Return {| res_id := row_id r;
            res_score := Float32.to_float64 score;
            res_metadata := row_metadata r |}.

(** The key comparison of [results.sort(key=lambda x: x['score'], ...)]. *)
Definition score_lt (a b : match_result) : bool :=
  Float64.ltb (res_score a) (res_score b).

Definition simulated_match : match_result :=
  {| res_id := "simulated_match";
     res_score := Float64.decimal 95 100;
     res_metadata := JDict [("text"%string, JString "Simulated result")] |}.

Definition query (self : VectorDBConnector) (dbs : databases)
    (collection_name : string) (vector : list Float64.t) (top_k : Z)
    : result (list match_result) * databases :=
  if String.eqb (provider self) "local" then
    match client self with
    | sqlite_connection path =>
        let rows := select_collection (dbs path) collection_name in
        let query_vec := np_array_float32 vector in
        (results <- for_each (score_row query_vec) rows ;;
         Return (slice_to (list_sort score_lt true results) top_k),
         dbs)
    | _ => (Raise AttributeError, dbs)
    end
  else
    match String.eqb (provider self) "pinecone", client self with
    | true, Pinecone key => (Delegated (IndexQuery key collection_name top_k), dbs)
    | true, pinecone_simulated => (Return [simulated_match], dbs)
    | true, _ => (Raise AttributeError, dbs)
    | false, _ => (Return [simulated_match], dbs)
    end.

(** The calls [upsert] receives one after the other, each a collection name
    and its list of records. *)
Definition run_upserts (self : VectorDBConnector) (dbs : databases)
    (calls : list (string * list vec)) : databases :=
  fold_left (fun d call => snd (upsert self d (fst call) (snd call))) calls dbs.

(** Python's [bool] is an [int]: [True == 1]. *)
Definition int_of_bool (b : bool) : Z := if b then 1 else 0.

(** ** Auxiliary definitions for the properties *)

(** A rank that orders the floats other than NaN as [<] does: class and sign
    first, then exponent and mantissa. *)
Definition float_rank (x : Float64.t) : Z * Z * Z :=
  match x with
  | S754_nan | S754_zero _ => (0, 0, 0)
  | S754_infinity true => (-2, 0, 0)
  | S754_infinity false => (2, 0, 0)
  | S754_finite true m e => (-1, - e, - Zpos m)
  | S754_finite false m e => (1, e, Zpos m)
  end.

Definition rank_lt (a b : Z * Z * Z) : Prop :=
  fst (fst a) < fst (fst b) \/
  (fst (fst a) = fst (fst b) /\
   (snd (fst a) < snd (fst b) \/
    (snd (fst a) = snd (fst b) /\ snd a < snd b))).

(** The specification's reading of the score: the stored float32 cells and
    the float32 query widened to binary64, then dot product, norms, product
    and quotient all in binary64. *)
Definition dot_float64 (a b : list Float64.t) : Float64.t :=
  fold_left (fun acc xy => SFadd Float64.prec Float64.emax acc
                             (SFmul Float64.prec Float64.emax (fst xy) (snd xy)))
            (combine a b) (S754_zero false).

Definition cosine_float64_spec (query_vec db_vec : ndarray) : Float64.t :=
  let q := map Float32.to_float64 query_vec in
  let d := map Float32.to_float64 db_vec in
  SFdiv Float64.prec Float64.emax (dot_float64 q d)
    (SFmul Float64.prec Float64.emax
       (SFsqrt Float64.prec Float64.emax (dot_float64 q q))
       (SFsqrt Float64.prec Float64.emax (dot_float64 d d))).

(** The score [query] gives a stored vector, as one expression. *)
Definition score_of (query_vec db_vec : ndarray) : Float64.t :=
  Float32.to_float64
    (Float32.div (dot_kernel query_vec db_vec)
       (Float32.mul (np_linalg_norm query_vec) (np_linalg_norm db_vec))).

(** ** Concrete stores used as examples *)

Definition plain_environment : Environment :=
  {| PINECONE_API_KEY := None;
     pinecone_installed := false;
     weaviate_installed := false |}.

Definition local_connector : VectorDBConnector :=
  __init__ "local" None plain_environment.

Definition no_databases : databases := fun _ => [].

Definition floats (values : list Z) : list Float64.t := map Float64.of_Z values.

Definition record (id : string) (values : list Z) : vec :=
  {| vec_id := id; vec_values := floats values; vec_metadata := None |}.

(** A result entry with empty metadata. *)
Definition entry (id : string) (score : Float64.t) : match_result :=
  {| res_id := id; res_score := score; res_metadata := JDict [] |}.

(** The three unit vectors of the ranking example, upserted in the order
    a, b, c into the collection "docs". *)
Definition ranking_store : databases :=
  snd (upsert local_connector no_databases "docs"
         [record "a" [1; 0; 0]; record "b" [0; 1; 0]; record "c" [1; 0; 0]]).

(** A collection holding a zero vector between two ordinary ones. *)
Definition zero_vector_store : databases :=
  snd (upsert local_connector no_databases "docs"
         [record "a" [1; 1]; record "b" [0; 0]; record "c" [1; 0]]).

(** A collection holding the single vector (1, 1). *)
Definition diagonal_store : databases :=
  snd (upsert local_connector no_databases "docs" [record "a" [1; 1]]).

(** ** Definitions for the further properties *)

(** The primary key of a row. *)
Definition row_key (r : row) : string * string := (row_collection r, row_id r).

(** [PRIMARY KEY (collection, id)]: no two rows of the table share both. *)
Definition primary_key (t : table) : Prop := NoDup (map row_key t).

(** The metadata [upsert] stores for a record: [vec.get('metadata', {})]. *)
Definition stored_metadata (v : vec) : json :=
  match vec_metadata v with Some m => m | None => JDict [] end.

(** The rows a batch of records overwrites: those of the collection whose id
    is the id of one of the records. *)
Definition batch_key (collection : string) (vs : list vec) (x : row) : bool :=
  String.eqb (row_collection x) collection
  && existsb (String.eqb (row_id x)) (map vec_id vs).

(** A float32 cell holding [+0.0] or [-0.0]. *)
Definition zero_cell (x : Float32.t) : Prop := x = 0 \/ x = 2 ^ 31.

(** The float32 cell every NaN is written as. *)
Definition nan_cell : Float32.t := 255 * 2 ^ 23 + 2 ^ 22.

(** A Python float that is [0.0] or [-0.0]. *)
Definition float_zero (x : Float64.t) : Prop := exists s, x = S754_zero s.

(** The API key a Pinecone connector is built with:
    [config.get("api_key") or os.getenv("PINECONE_API_KEY")]. *)
Definition pinecone_key (config : Config) (env : Environment) : option string :=
  py_or (cfg_api_key config) (PINECONE_API_KEY env).

(** Stores and environments used as examples. *)
Definition full_environment : Environment :=
  {| PINECONE_API_KEY := Some "env-key"%string;
     pinecone_installed := true;
     weaviate_installed := true |}.

Definition keyed_config : Config :=
  {| cfg_api_key := Some "cfg-key"%string;
     cfg_url := Some "http://localhost:8080"%string;
     cfg_db_path := Some "./demo_vectordb.sqlite"%string |}.

(** * Properties *)

(** ** [list.sort]: what holds for every comparison *)

Section SortPermutes.
Context {A : Type}.
Variable lt : A -> A -> bool.

Lemma binary_insert_perm (sorted : list A) (pivot : A) :
  Permutation (binary_insert lt sorted pivot) (pivot :: sorted).
Proof.
  unfold binary_insert.
  set (p := bisect lt _ _ _ _ _).
  rewrite <- (firstn_skipn p sorted) at 3.
  symmetry. apply Permutation_middle.
Qed.

Lemma binarysort_perm (rest run : list A) :
  Permutation (binarysort lt run rest) (run ++ rest).
Proof.
  unfold binarysort. revert run.
  induction rest as [|x rest IH]; intros run; simpl.
  - now rewrite app_nil_r.
  - eapply Permutation_trans; [apply IH|].
    eapply Permutation_trans;
      [apply Permutation_app_tail, binary_insert_perm|].
    apply (Permutation_middle run rest x).
Qed.

Lemma list_sort_perm (reverse : bool) (l : list A) :
  Permutation (list_sort lt reverse l) l.
Proof.
  unfold list_sort.
  destruct l as [|x [|y l]]; try reflexivity.
  set (l1 := if reverse then rev (x :: y :: l) else x :: y :: l).
  assert (Hl1 : Permutation l1 (x :: y :: l)).
  { subst l1. destruct reverse; [symmetry; apply Permutation_rev | reflexivity]. }
  destruct (count_run lt l1) as [n descending].
  set (run := firstn n l1).
  assert (Hs : Permutation
                 (binarysort lt (if descending then rev run else run) (skipn n l1)) l1).
  { eapply Permutation_trans; [apply binarysort_perm|].
    rewrite <- (firstn_skipn n l1) at 2. fold run.
    apply Permutation_app_tail.
    destruct descending; [symmetry; apply Permutation_rev | reflexivity]. }
  destruct reverse.
  - eapply Permutation_trans; [symmetry; apply Permutation_rev|].
    eapply Permutation_trans; eassumption.
  - eapply Permutation_trans; eassumption.
Qed.
End SortPermutes.

(** ** Sorted lists *)

Section SortedLists.
Context {A : Type}.
Variable R : A -> A -> Prop.

Lemma sorted_snoc (l : list A) (x : A) :
  StronglySorted R l -> Forall (fun y => R y x) l ->
  StronglySorted R (l ++ [x]).
Proof.
  induction 1 as [|y l Hs IH Hall]; intros Hx; simpl.
  - repeat constructor.
  - inversion Hx as [|? ? Hy Hx']; subst. constructor.
    + now apply IH.
    + apply Forall_app. split; [assumption | now constructor].
Qed.

Lemma sorted_before_last (l : list A) (x : A) :
  StronglySorted R (l ++ [x]) -> Forall (fun y => R y x) l.
Proof.
  induction l as [|y l IH]; simpl; intros H; [constructor|].
  inversion H as [|? ? Hs Hall]; subst. constructor.
  - apply Forall_app in Hall. destruct Hall as [_ Hall].
    now inversion Hall.
  - now apply IH.
Qed.
End SortedLists.

Lemma sorted_rev {A : Type} (R : A -> A -> Prop) (l : list A) :
  StronglySorted R l -> StronglySorted (fun a b => R b a) (rev l).
Proof.
  induction 1 as [|y l Hs IH Hall]; simpl; [constructor|].
  apply sorted_snoc; [assumption | now apply Forall_rev].
Qed.

(** ** [list.sort]: the comparison is a strict weak order *)

Section SortOrdered.
Context {A : Type}.
Variable lt : A -> A -> bool.

Hypothesis lt_irrefl : forall a, lt a a = false.
Hypothesis lt_trans :
  forall a b c, lt a b = true -> lt b c = true -> lt a c = true.
Hypothesis le_trans :
  forall a b c, lt b a = false -> lt c b = false -> lt c a = false.

Local Abbreviation le := (not_greater lt).

Lemma key_lt_le (a b : A) : lt a b = true -> le a b.
Proof.
  unfold not_greater. intros H. destruct (lt b a) eqn:E; [|reflexivity].
  pose proof (lt_irrefl a) as Hi.
  now rewrite (lt_trans _ _ _ H E) in Hi.
Qed.

Lemma key_lt_le_trans (a b c : A) : lt a b = true -> le b c -> lt a c = true.
Proof.
  unfold not_greater. intros H1 H2. destruct (lt a c) eqn:E; [reflexivity|].
  now rewrite (le_trans _ _ _ H2 E) in H1.
Qed.

Lemma key_le_lt_trans (a b c : A) : le a b -> lt b c = true -> lt a c = true.
Proof.
  unfold not_greater. intros H1 H2. destruct (lt a c) eqn:E; [reflexivity|].
  now rewrite (le_trans _ _ _ E H1) in H2.
Qed.

Lemma insert_at_point (x : A) (l : list A) (p : nat) :
  (forall i, (i < p)%nat -> lt x (nth i l x) = false) ->
  (forall i, (p <= i < List.length l)%nat -> lt x (nth i l x) = true) ->
  (p <= List.length l)%nat ->
  firstn p l ++ x :: skipn p l = insert_sorted lt x l.
Proof.
  revert p. induction l as [|y l IH]; intros p Hlo Hhi Hp; simpl in *.
  - now replace p with 0%nat by lia.
  - destruct p as [|p]; simpl.
    + now rewrite (Hhi 0%nat) by lia.
    + rewrite (Hlo 0%nat) by lia. f_equal. apply IH.
      * intros i Hi. apply (Hlo (S i)). lia.
      * intros i Hi. apply (Hhi (S i)). lia.
      * lia.
Qed.

Lemma sorted_nth (l : list A) (d : A) :
  StronglySorted le l ->
  forall i j, (i <= j < List.length l)%nat -> le (nth i l d) (nth j l d).
Proof.
  induction 1 as [|y l Hs IH Hall]; intros i j Hij; simpl in *; [lia|].
  destruct i as [|i], j as [|j]; try lia.
  - apply lt_irrefl.
  - rewrite Forall_forall in Hall. apply Hall, nth_In. lia.
  - apply IH. lia.
Qed.

Lemma bisect_point (x : A) (sorted : list A) :
  StronglySorted le sorted ->
  forall fuel l r,
    (l <= r <= List.length sorted)%nat -> (r - l <= fuel)%nat ->
    (forall i, (i < l)%nat -> lt x (nth i sorted x) = false) ->
    (forall i, (r <= i < List.length sorted)%nat -> lt x (nth i sorted x) = true) ->
    (bisect lt fuel x sorted l r <= List.length sorted)%nat /\
    (forall i, (i < bisect lt fuel x sorted l r)%nat ->
               lt x (nth i sorted x) = false) /\
    (forall i, (bisect lt fuel x sorted l r <= i < List.length sorted)%nat ->
               lt x (nth i sorted x) = true).
Proof.
  intros Hs. induction fuel as [|fuel IH]; intros l r Hlr Hfuel Hlo Hhi;
    cbn [bisect]; cbv zeta.
  - replace r with l in * by lia. repeat split; [lia | assumption | assumption].
  - destruct (Nat.ltb_spec l r) as [Hlt|Hge].
    + set (p := (l + (r - l) / 2)%nat).
      assert (Hp : (l <= p < r)%nat).
      { subst p. pose proof (Nat.Div0.div_lt_upper_bound (r - l) 2 (r - l)). lia. }
      destruct (lt x (nth p sorted x)) eqn:E.
      * apply IH; try lia; [assumption|].
        intros i Hi. eapply key_lt_le_trans; [exact E|].
        apply sorted_nth; [assumption | lia].
      * apply IH; try lia; [|assumption].
        intros i Hi. apply (le_trans _ (nth p sorted x)); [|exact E].
        apply sorted_nth; [assumption | lia].
    + replace r with l in * by lia. repeat split; [lia | assumption | assumption].
Qed.

Lemma binary_insert_sorted (sorted : list A) (x : A) :
  StronglySorted le sorted ->
  binary_insert lt sorted x = insert_sorted lt x sorted.
Proof.
  intros Hs. unfold binary_insert.
  destruct (bisect_point x sorted Hs (List.length sorted) 0 (List.length sorted))
    as (Hp & Hlo & Hhi); try lia.
  now apply insert_at_point.
Qed.

Lemma insert_sorted_sorted (x : A) (l : list A) :
  StronglySorted le l -> StronglySorted le (insert_sorted lt x l).
Proof.
  induction 1 as [|y l Hs IH Hall]; simpl.
  - repeat constructor.
  - destruct (lt x y) eqn:E.
    + constructor; [now constructor|]. constructor; [now apply key_lt_le|].
      eapply Forall_impl; [|exact Hall].
      intros z Hz. apply key_lt_le. now apply (key_lt_le_trans x y z).
    + constructor; [assumption|].
      clear IH Hs. induction l as [|z l IHl]; simpl.
      * now repeat constructor.
      * inversion Hall; subst.
        destruct (lt x z); repeat constructor; auto.
Qed.

Lemma insert_sorted_last (x : A) (l : list A) :
  Forall (fun y => le y x) l -> insert_sorted lt x l = l ++ [x].
Proof.
  induction 1 as [|y l Hy Hall IH]; simpl; [reflexivity|].
  unfold not_greater in Hy. now rewrite Hy, IH.
Qed.

Lemma fold_insert_sorted (l acc : list A) :
  StronglySorted le acc ->
  StronglySorted le (fold_left (fun acc x => insert_sorted lt x acc) l acc).
Proof.
  revert acc. induction l as [|x l IH]; intros acc Hs; simpl; [assumption|].
  apply IH. now apply insert_sorted_sorted.
Qed.

Lemma insertion_sort_sorted (l : list A) : StronglySorted le (insertion_sort lt l).
Proof. apply fold_insert_sorted. constructor. Qed.

Lemma binarysort_insertion (rest run : list A) :
  StronglySorted le run ->
  binarysort lt run rest = fold_left (fun acc x => insert_sorted lt x acc) rest run.
Proof.
  unfold binarysort. revert run.
  induction rest as [|x rest IH]; intros run Hs; simpl; [reflexivity|].
  rewrite binary_insert_sorted by assumption.
  apply IH. now apply insert_sorted_sorted.
Qed.

(** The leading run is what insertion sort makes of it. *)

Lemma run_ascending_fold (l : list A) :
  forall prev acc,
    StronglySorted le (acc ++ [prev]) ->
    fold_left (fun acc x => insert_sorted lt x acc)
              (firstn (run_ascending lt prev l) l) (acc ++ [prev])
    = acc ++ prev :: firstn (run_ascending lt prev l) l.
Proof.
  induction l as [|x l IH]; intros prev acc Hs; simpl.
  - reflexivity.
  - destruct (lt x prev) eqn:E; simpl.
    + reflexivity.
    + assert (Hall : Forall (fun y => le y x) (acc ++ [prev])).
      { apply Forall_app. split; [|now repeat constructor].
        eapply Forall_impl; [|apply (sorted_before_last le _ _ Hs)].
        intros y Hy. now apply (le_trans y prev x). }
      rewrite insert_sorted_last by assumption.
      rewrite IH by now apply sorted_snoc.
      now rewrite <- app_assoc.
Qed.

Lemma run_descending_fold (l : list A) :
  forall prev acc,
    fold_left (fun acc x => insert_sorted lt x acc)
              (firstn (run_descending lt prev l) l) (prev :: acc)
    = rev (firstn (run_descending lt prev l) l) ++ prev :: acc.
Proof.
  induction l as [|x l IH]; intros prev acc; simpl; [reflexivity|].
  destruct (lt x prev) eqn:E; simpl; [|reflexivity].
  rewrite E, IH. now rewrite <- app_assoc.
Qed.

Lemma count_run_insertion (l : list A) :
  (if snd (count_run lt l)
   then rev (firstn (fst (count_run lt l)) l)
   else firstn (fst (count_run lt l)) l)
  = insertion_sort lt (firstn (fst (count_run lt l)) l).
Proof.
  unfold insertion_sort.
  destruct l as [|x [|y l]]; try reflexivity.
  cbn [count_run]. destruct (lt y x) eqn:E; cbn [fst snd firstn fold_left insert_sorted].
  - rewrite E, run_descending_fold.
    cbn [rev]. now rewrite <- !app_assoc.
  - rewrite E. symmetry.
    apply (run_ascending_fold l y [x]).
    repeat constructor. exact E.
Qed.

(** On a strict weak order [list.sort] is the stable insertion sort, and
    with [reverse=True] its mirror image. *)
Lemma list_sort_insertion (reverse : bool) (l : list A) :
  list_sort lt reverse l =
  if reverse then rev (insertion_sort lt (rev l)) else insertion_sort lt l.
Proof.
  assert (Hcore : forall l1 : list A,
             binarysort lt
               (if snd (count_run lt l1)
                then rev (firstn (fst (count_run lt l1)) l1)
                else firstn (fst (count_run lt l1)) l1)
               (skipn (fst (count_run lt l1)) l1)
             = insertion_sort lt l1).
  { intros l1. rewrite count_run_insertion.
    rewrite binarysort_insertion by apply insertion_sort_sorted.
    unfold insertion_sort. rewrite <- fold_left_app.
    now rewrite firstn_skipn. }
  unfold list_sort.
  destruct l as [|x [|y l]].
  - now destruct reverse.
  - now destruct reverse.
  - set (l1 := if reverse then rev (x :: y :: l) else x :: y :: l).
    specialize (Hcore l1).
    destruct (count_run lt l1) as [n descending]. cbn [fst snd] in Hcore.
    rewrite Hcore. subst l1. now destruct reverse.
Qed.

(** Stability: the items tied with [a] keep their order. *)

Lemma tie_lt_false (a x z : A) :
  tie lt a x = true -> lt x z = true -> tie lt a z = false.
Proof.
  unfold tie. intros Ht Hlt.
  apply andb_true_iff in Ht. destruct Ht as [_ Ht].
  apply negb_true_iff in Ht.
  now rewrite (key_le_lt_trans a x z Ht Hlt).
Qed.

Lemma filter_tie_above (a x : A) (l : list A) :
  tie lt a x = true -> Forall (fun z => lt x z = true) l ->
  filter (tie lt a) l = [].
Proof.
  intros Ht. induction 1 as [|z l Hz Hl IH]; [reflexivity|].
  cbn [filter]. now rewrite (tie_lt_false a x z Ht Hz).
Qed.

Lemma insert_sorted_tie (a x : A) (l : list A) :
  StronglySorted le l ->
  filter (tie lt a) (insert_sorted lt x l) = filter (tie lt a) l ++ filter (tie lt a) [x].
Proof.
  induction 1 as [|y l Hs IH Hall]; [reflexivity|].
  cbn [insert_sorted]. destruct (lt x y) eqn:E.
  - destruct (tie lt a x) eqn:Ht.
    + assert (Hnone : filter (tie lt a) (y :: l) = []).
      { apply (filter_tie_above a x); [assumption|].
        constructor; [assumption|].
        eapply Forall_impl; [|exact Hall].
        intros z Hz. now apply (key_lt_le_trans x y z). }
      change (filter (tie lt a) (x :: y :: l))
        with (if tie lt a x then x :: filter (tie lt a) (y :: l)
              else filter (tie lt a) (y :: l)).
      rewrite Hnone. cbn [filter app]. now rewrite Ht.
    + cbn [filter]. rewrite Ht. now rewrite app_nil_r.
  - cbn [filter]. rewrite IH. now destruct (tie lt a y).
Qed.

Lemma fold_insert_tie (a : A) (l acc : list A) :
  StronglySorted le acc ->
  filter (tie lt a) (fold_left (fun acc x => insert_sorted lt x acc) l acc)
  = filter (tie lt a) acc ++ filter (tie lt a) l.
Proof.
  revert acc. induction l as [|x l IH]; intros acc Hs; cbn [fold_left].
  - now rewrite app_nil_r.
  - rewrite IH by now apply insert_sorted_sorted.
    rewrite insert_sorted_tie by assumption.
    rewrite <- app_assoc. f_equal.
    cbn [filter]. now destruct (tie lt a x).
Qed.

(** [list.sort(reverse=True)]: a permutation, descending, ties in their
    original order. *)
Lemma list_sort_reverse_stable (l : list A) :
  Permutation (list_sort lt true l) l /\
  StronglySorted (fun a b => lt a b = false) (list_sort lt true l) /\
  (forall a, filter (tie lt a) (list_sort lt true l) = filter (tie lt a) l).
Proof.
  split; [apply list_sort_perm|].
  rewrite list_sort_insertion. split.
  - apply (sorted_rev le). apply insertion_sort_sorted.
  - intros a. rewrite filter_rev. unfold insertion_sort.
    rewrite fold_insert_tie by constructor.
    cbn [filter app]. rewrite filter_rev. apply rev_involutive.
Qed.
End SortOrdered.

(** ** [list.sort] commutes with maps that preserve the comparison *)

Section SortNatural.
Context {A B : Type}.
Variable f : B -> A.
Variable ltA : A -> A -> bool.
Variable ltB : B -> B -> bool.
Hypothesis f_lt : forall x y, ltA (f x) (f y) = ltB x y.

Lemma run_ascending_map (l : list B) (prev : B) :
  run_ascending ltA (f prev) (map f l) = run_ascending ltB prev l.
Proof.
  revert prev. induction l as [|x l IH]; intros prev; simpl; [reflexivity|].
  now rewrite f_lt, IH.
Qed.

Lemma run_descending_map (l : list B) (prev : B) :
  run_descending ltA (f prev) (map f l) = run_descending ltB prev l.
Proof.
  revert prev. induction l as [|x l IH]; intros prev; simpl; [reflexivity|].
  now rewrite f_lt, IH.
Qed.

Lemma count_run_map (l : list B) :
  count_run ltA (map f l) = count_run ltB l.
Proof.
  destruct l as [|x [|y l]]; try reflexivity.
  cbn [map count_run].
  now rewrite f_lt, run_descending_map, run_ascending_map.
Qed.

Lemma bisect_map (fuel : nat) (x : B) (s : list B) (l r : nat) :
  bisect ltA fuel (f x) (map f s) l r = bisect ltB fuel x s l r.
Proof.
  revert l r. induction fuel as [|fuel IH]; intros l r; cbn [bisect];
    [reflexivity|].
  now rewrite map_nth, f_lt, !IH.
Qed.

Lemma binary_insert_map (s : list B) (x : B) :
  binary_insert ltA (map f s) (f x) = map f (binary_insert ltB s x).
Proof.
  unfold binary_insert.
  rewrite length_map, bisect_map, map_app, firstn_map, skipn_map.
  reflexivity.
Qed.

Lemma binarysort_map (rest run : list B) :
  binarysort ltA (map f run) (map f rest) = map f (binarysort ltB run rest).
Proof.
  unfold binarysort. revert run.
  induction rest as [|x rest IH]; intros run; simpl; [reflexivity|].
  now rewrite binary_insert_map, IH.
Qed.

Lemma list_sort_map (reverse : bool) (l : list B) :
  list_sort ltA reverse (map f l) = map f (list_sort ltB reverse l).
Proof.
  unfold list_sort.
  destruct l as [|x [|y l]]; try reflexivity.
  change (map f (x :: y :: l)) with (f x :: f y :: map f l) at 1.
  cbv iota. change (f x :: f y :: map f l) with (map f (x :: y :: l)).
  set (l1 := if reverse then rev (x :: y :: l) else x :: y :: l).
  replace (if reverse then rev (map f (x :: y :: l)) else map f (x :: y :: l))
    with (map f l1) by (subst l1; destruct reverse; [apply map_rev | reflexivity]).
  rewrite count_run_map.
  destruct (count_run ltB l1) as [n descending].
  rewrite firstn_map, skipn_map.
  replace (if descending then rev (map f (firstn n l1)) else map f (firstn n l1))
    with (map f (if descending then rev (firstn n l1) else firstn n l1))
    by (destruct descending; [apply map_rev | reflexivity]).
  rewrite binarysort_map.
  destruct reverse; [symmetry; apply map_rev | reflexivity].
Qed.
End SortNatural.

Lemma sorted_map {A B : Type} (f : B -> A) (R : A -> A -> Prop) (l : list B) :
  StronglySorted (fun x y => R (f x) (f y)) l -> StronglySorted R (map f l).
Proof.
  induction 1 as [|x l Hs IH Hall]; simpl; constructor; [assumption|].
  now apply Forall_map.
Qed.

(** ** [list.sort] on a list whose keys are all comparable

    The order laws are only asked of the items that pass [ok]; this is the
    form the ranking needs, where NaN scores obey none of them. *)

Section SortRelative.
Context {A : Type}.
Variable lt : A -> A -> bool.
Variable ok : A -> bool.

Hypothesis lt_irrefl : forall a, ok a = true -> lt a a = false.
Hypothesis lt_trans :
  forall a b c, ok a = true -> ok b = true -> ok c = true ->
                lt a b = true -> lt b c = true -> lt a c = true.
Hypothesis le_trans :
  forall a b c, ok a = true -> ok b = true -> ok c = true ->
                lt b a = false -> lt c b = false -> lt c a = false.

Lemma list_sort_reverse_stable_on (l : list A) :
  Forall (fun a => ok a = true) l ->
  Permutation (list_sort lt true l) l /\
  StronglySorted (fun a b => lt a b = false) (list_sort lt true l) /\
  (forall a, ok a = true ->
             filter (tie lt a) (list_sort lt true l) = filter (tie lt a) l).
Proof.
  intros Hok. split; [apply list_sort_perm|].
  pose (carrier := { a : A | ok a = true }).
  pose (lt' := fun x y : carrier => lt (proj1_sig x) (proj1_sig y)).
  assert (Hl : exists l' : list carrier, l = map (@proj1_sig _ _) l').
  { apply Forall_image. eapply Forall_impl; [|exact Hok].
    intros a Ha. now exists (exist _ a Ha). }
  destruct Hl as [l' ->].
  rewrite (list_sort_map (@proj1_sig _ _) lt lt') by reflexivity.
  destruct (list_sort_reverse_stable lt') with (l := l') as (_ & Hs & Ht).
  - intros [a Ha]. now apply lt_irrefl.
  - intros [a Ha] [b Hb] [c Hc]. now apply lt_trans.
  - intros [a Ha] [b Hb] [c Hc]. now apply le_trans.
  - split.
    + now apply sorted_map.
    + intros a Ha.
      rewrite !filter_map_swap. f_equal.
      apply (Ht (exist _ a Ha)).
Qed.
End SortRelative.

(** ** Python's [<] on floats that are not NaN *)

Section FloatOrder.
Lemma ltb_rank (x y : Float64.t) :
  Float64.is_nan x = false -> Float64.is_nan y = false ->
  (Float64.ltb x y = true <-> rank_lt (float_rank x) (float_rank y)).
Proof.
  unfold Float64.ltb, SFltb, rank_lt.
  destruct x as [sx|sx| |sx mx ex], y as [sy|sy| |sy my ey];
    try discriminate; intros _ _;
    try destruct sx; try destruct sy; cbn;
    try (split; [discriminate | lia]);
    try (split; [lia | reflexivity]).
  - change (Pos.compare_cont Eq mx my) with (Pos.compare mx my).
    destruct (Z.compare_spec ex ey), (Pos.compare_spec mx my); cbn;
      split; try discriminate; try reflexivity; lia.
  - change (Pos.compare_cont Eq mx my) with (Pos.compare mx my).
    destruct (Z.compare_spec ex ey), (Pos.compare_spec mx my); cbn;
      split; try discriminate; try reflexivity; lia.
Qed.

Lemma ltb_false_rank (x y : Float64.t) :
  Float64.is_nan x = false -> Float64.is_nan y = false ->
  (Float64.ltb x y = false <-> ~ rank_lt (float_rank x) (float_rank y)).
Proof.
  intros Hx Hy. rewrite <- (ltb_rank x y Hx Hy).
  destruct (Float64.ltb x y); split; congruence.
Qed.

Lemma ltb_irrefl (a : Float64.t) :
  Float64.is_nan a = false -> Float64.ltb a a = false.
Proof.
  intros Ha. apply ltb_false_rank; try assumption.
  unfold rank_lt. lia.
Qed.

Lemma ltb_trans (a b c : Float64.t) :
  Float64.is_nan a = false -> Float64.is_nan b = false ->
  Float64.is_nan c = false ->
  Float64.ltb a b = true -> Float64.ltb b c = true -> Float64.ltb a c = true.
Proof.
  intros Ha Hb Hc. rewrite !ltb_rank by assumption.
  unfold rank_lt. lia.
Qed.

Lemma leb_trans (a b c : Float64.t) :
  Float64.is_nan a = false -> Float64.is_nan b = false ->
  Float64.is_nan c = false ->
  Float64.ltb b a = false -> Float64.ltb c b = false -> Float64.ltb c a = false.
Proof.
  intros Ha Hb Hc. rewrite !ltb_false_rank by assumption.
  unfold rank_lt. lia.
Qed.
End FloatOrder.

(** ** float32 cells and their bytes *)

Lemma to_bits_range (x : spec_float) : 0 <= Float32.to_bits x < 2 ^ 32.
Proof.
  assert (Hs : forall s, Float32.sign_bit s = 0 \/ Float32.sign_bit s = 2 ^ 31)
    by (intros []; [right | left]; reflexivity).
  destruct x as [s|s| |s m e]; cbn [Float32.to_bits].
  - destruct (Hs s) as [-> | ->]; lia.
  - destruct (Hs s) as [-> | ->]; lia.
  - lia.
  - pose proof (Z.mod_pos_bound (Zpos m) (2 ^ 23) ltac:(lia)).
    pose proof (Z.mod_pos_bound (e + 150) 256 ltac:(lia)).
    destruct (Zpos m <? 2 ^ 23); destruct (Hs s) as [-> | ->]; lia.
Qed.

Lemma of_float64_range (x : Float64.t) : 0 <= Float32.of_float64 x < 2 ^ 32.
Proof. apply to_bits_range. Qed.

Lemma le_split_4 (x : Z) :
  le_split 4 x =
  [byte.of_Z x; byte.of_Z (Z.shiftr x 8);
   byte.of_Z (Z.shiftr (Z.shiftr x 8) 8);
   byte.of_Z (Z.shiftr (Z.shiftr (Z.shiftr x 8) 8) 8)].
Proof. reflexivity. Qed.

Lemma length_tobytes (a : ndarray) :
  List.length (tobytes a) = (4 * List.length a)%nat.
Proof.
  unfold tobytes. induction a as [|x a IH]; [reflexivity|].
  cbn [flat_map]. rewrite length_app, length_le_split, IH. cbn [List.length]. lia.
Qed.

Lemma frombuffer_tobytes (a : ndarray) :
  Forall (fun x => 0 <= x < 2 ^ 32) a ->
  frombuffer (tobytes a) = Return a.
Proof.
  unfold tobytes. induction 1 as [|x a Hx Ha IH]; [reflexivity|].
  cbn [flat_map]. rewrite le_split_4. cbn [app frombuffer].
  rewrite IH. cbn [bind]. rewrite <- le_split_4.
  rewrite le_combine_split. now rewrite Z.mod_small by exact Hx.
Qed.

Lemma np_array_float32_range (values : list Float64.t) :
  Forall (fun x => 0 <= x < 2 ^ 32) (np_array_float32 values).
Proof.
  unfold np_array_float32. apply Forall_map, Forall_forall.
  intros x _. apply of_float64_range.
Qed.

(** The encoding on known values: 1.0 is 3f800000, -2.0 is c0000000, 0.1
    rounds to 3dcccccd, 1e39 overflows to +inf (7f800000); the literal 0.95
    is the double 3fee666666666666. *)
Example tobytes_known_values :
  tobytes (np_array_float32 [Float64.of_Z 1; Float64.of_Z (-2)])
  = [Byte.x00; Byte.x00; Byte.x80; Byte.x3f; Byte.x00; Byte.x00; Byte.x00; Byte.xc0].
Proof. reflexivity. Qed.

Example of_float64_known_values :
  map Float32.of_float64 [Float64.decimal 1 10; Float64.of_Z (10 ^ 39)]
  = [1036831949; 2139095040].
Proof. vm_compute. reflexivity. Qed.

Example simulated_score_value :
  res_score simulated_match = S754_finite false 8556839292003942 (-53).
Proof. vm_compute. reflexivity. Qed.

(** Reading a buffer in steps of four bytes. *)
Lemma frombuffer_cases (buf : list byte) :
  (exists cells, frombuffer buf = Return cells /\
                 List.length buf = (4 * List.length cells)%nat) \/
  (frombuffer buf = Raise ValueError /\
   forall n, List.length buf <> (4 * n)%nat).
Proof.
  enough (H : forall l : list byte,
             (List.length l <= List.length buf)%nat ->
             (exists cells, frombuffer l = Return cells /\
                            List.length l = (4 * List.length cells)%nat) \/
             (frombuffer l = Raise ValueError /\
              forall n, List.length l <> (4 * n)%nat))
    by (apply H; lia).
  induction buf as [|b buf IH]; intros l Hl.
  - destruct l; [|simpl in Hl; lia]. left. now exists [].
  - destruct l as [|b0 [|b1 [|b2 [|b3 rest]]]];
      try (right; split; [reflexivity | cbn [List.length]; lia]).
    + left. now exists [].
    + cbn [frombuffer].
      destruct (IH rest) as [(cells & -> & Hlen) | (-> & Hlen)].
      * cbn [List.length] in Hl. lia.
      * left. eexists. split; [reflexivity|]. cbn [List.length]. lia.
      * right. split; [reflexivity|].
        intros n. cbn [List.length]. specialize (Hlen (n - 1)%nat). lia.
Qed.

(** ** The table [vectors] *)

Lemma filter_filter {A : Type} (f g : A -> bool) (l : list A) :
  filter f (filter g l) = filter (fun x => g x && f x) l.
Proof.
  induction l as [|x l IH]; [reflexivity|].
  cbn [filter]. destruct (g x); cbn [filter andb]; now rewrite IH.
Qed.

Lemma select_insert_same (t : table) (r : row) :
  select_collection (insert_or_replace t r) (row_collection r) =
  filter (fun x => negb (String.eqb (row_id x) (row_id r)))
         (select_collection t (row_collection r)) ++ [r].
Proof.
  unfold select_collection, insert_or_replace, same_key.
  rewrite filter_app, !filter_filter. cbn [filter].
  rewrite String.eqb_refl. f_equal.
  apply filter_ext. intros x.
  destruct (String.eqb (row_collection x) (row_collection r)),
    (String.eqb (row_id x) (row_id r)); reflexivity.
Qed.

Lemma select_insert_other (t : table) (r : row) (collection : string) :
  row_collection r <> collection ->
  select_collection (insert_or_replace t r) collection =
  select_collection t collection.
Proof.
  intros Hne. unfold select_collection, insert_or_replace, same_key.
  rewrite filter_app, filter_filter. cbn [filter].
  apply String.eqb_neq in Hne. rewrite Hne, app_nil_r.
  apply filter_ext. intros x.
  destruct (String.eqb (row_collection x) (row_collection r)) eqn:E;
    [|reflexivity].
  apply String.eqb_eq in E. rewrite E, Hne. apply andb_false_r.
Qed.

Lemma select_insert_vec (t : table) (collection : string) (v : vec) :
  select_collection (insert_or_replace t (row_of_vec collection v)) collection =
  filter (fun x => negb (String.eqb (row_id x) (vec_id v)))
         (select_collection t collection) ++ [row_of_vec collection v].
Proof. exact (select_insert_same t (row_of_vec collection v)). Qed.

Lemma write_db_same (dbs : databases) (path : string) (t : table) :
  write_db dbs path t path = t.
Proof. unfold write_db. now rewrite String.eqb_refl. Qed.

(** The rows a collection holds under one id. *)
Lemma rows_of_id_insert_same (t : table) (collection : string) (v : vec) :
  filter (fun x => String.eqb (row_id x) (vec_id v))
    (select_collection (insert_or_replace t (row_of_vec collection v)) collection)
  = [row_of_vec collection v].
Proof.
  rewrite select_insert_vec.
  rewrite filter_app, filter_filter. cbn [filter row_of_vec row_id].
  rewrite String.eqb_refl.
  rewrite (filter_ext _ (fun _ => false)), filter_false; [reflexivity|].
  intros x. now destruct (String.eqb (row_id x) (vec_id v)).
Qed.

Lemma rows_of_id_insert_other (t : table) (collection id : string) (v : vec) :
  vec_id v <> id ->
  filter (fun x => String.eqb (row_id x) id)
    (select_collection (insert_or_replace t (row_of_vec collection v)) collection)
  = filter (fun x => String.eqb (row_id x) id) (select_collection t collection).
Proof.
  intros Hne.
  rewrite select_insert_vec.
  rewrite filter_app, filter_filter. cbn [filter row_of_vec row_id row_collection].
  apply String.eqb_neq in Hne. rewrite Hne, app_nil_r.
  apply filter_ext. intros x.
  destruct (String.eqb (row_id x) id) eqn:E; [|now rewrite andb_false_r].
  apply String.eqb_eq in E. rewrite E.
  rewrite String.eqb_sym, Hne. reflexivity.
Qed.

Lemma rows_of_id_insert_many (vs : list vec) (t : table) (collection id : string) :
  Forall (fun u => vec_id u <> id) vs ->
  filter (fun x => String.eqb (row_id x) id)
    (select_collection
       (fold_left (fun t v => insert_or_replace t (row_of_vec collection v)) vs t)
       collection)
  = filter (fun x => String.eqb (row_id x) id) (select_collection t collection).
Proof.
  intros H. revert t. induction H as [|u vs Hu Hvs IH]; intros t; [reflexivity|].
  cbn [fold_left]. rewrite IH. now apply rows_of_id_insert_other.
Qed.

Lemma ids_insert (t : table) (collection id : string) (v : vec) :
  In id (map row_id
           (select_collection (insert_or_replace t (row_of_vec collection v))
              collection)) <->
  id = vec_id v \/ In id (map row_id (select_collection t collection)).
Proof.
  rewrite select_insert_vec.
  rewrite map_app, in_app_iff. cbn [map In row_of_vec row_id row_collection].
  rewrite !in_map_iff. split.
  - intros [(x & Hx & Hin) | [H | []]]; [right | now left].
    apply filter_In in Hin. exists x. tauto.
  - intros [H | (x & Hx & Hin)]; [right; now left|].
    destruct (String.eqb (row_id x) (vec_id v)) eqn:E.
    + apply String.eqb_eq in E. right. left. congruence.
    + left. exists x. split; [assumption|].
      apply filter_In. split; [assumption|]. now rewrite E.
Qed.

Lemma ids_insert_many (vs : list vec) (t : table) (collection id : string) :
  In id (map row_id
           (select_collection
              (fold_left (fun t v => insert_or_replace t (row_of_vec collection v))
                         vs t)
              collection)) <->
  In id (map vec_id vs) \/ In id (map row_id (select_collection t collection)).
Proof.
  revert t. induction vs as [|v vs IH]; intros t; cbn [fold_left map In].
  - tauto.
  - rewrite IH, ids_insert. intuition congruence.
Qed.

Lemma select_insert_many_other (vs : list vec) (t : table)
    (written collection : string) :
  written <> collection ->
  select_collection
    (fold_left (fun t v => insert_or_replace t (row_of_vec written v)) vs t)
    collection
  = select_collection t collection.
Proof.
  intros Hne. revert t. induction vs as [|v vs IH]; intros t; [reflexivity|].
  cbn [fold_left]. rewrite IH. now apply select_insert_other.
Qed.

(** ** Loops and slices *)

Lemma for_each_Return_inv {A B : Type} (body : A -> result B) (l : list A) :
  forall bs, for_each body l = Return bs ->
             Forall2 (fun a b => body a = Return b) l bs.
Proof.
  induction l as [|a l IH]; intros bs H; cbn [for_each] in H.
  - injection H as <-. constructor.
  - destruct (body a) as [b| |] eqn:Eb; try discriminate.
    destruct (for_each body l) as [bs'| |]; try discriminate.
    cbn [bind] in H. injection H as <-.
    constructor; [assumption | now apply IH].
Qed.

Lemma for_each_Return {A B : Type} (body : A -> result B) (l : list A) :
  Forall (fun a => exists b, body a = Return b) l ->
  exists bs, for_each body l = Return bs.
Proof.
  induction 1 as [|a l [b Hb] Hl [bs IH]]; cbn [for_each].
  - now exists [].
  - rewrite Hb, IH. now exists (b :: bs).
Qed.

Lemma for_each_Raise {A B : Type} (body : A -> result B) (e : exception)
    (l : list A) :
  Forall (fun a => (exists b, body a = Return b) \/ body a = Raise e) l ->
  Exists (fun a => body a = Raise e) l ->
  for_each body l = Raise e.
Proof.
  induction 1 as [|a l Ha Hl IH]; intros Hex; [inversion Hex|].
  cbn [for_each]. destruct Ha as [[b Hb] | Hr].
  - rewrite Hb. cbn [bind]. rewrite IH; [reflexivity|].
    inversion Hex as [? ? H | ? ? H]; subst; [congruence | assumption].
  - now rewrite Hr.
Qed.

Lemma slice_to_incl {A : Type} (l : list A) (k : Z) (x : A) :
  In x (slice_to l k) -> In x l.
Proof.
  assert (Hfirst : forall n, In x (firstn n l) -> In x l).
  { intros n H. rewrite <- (firstn_skipn n l). apply in_or_app. now left. }
  unfold slice_to. destruct (0 <=? k); apply Hfirst.
Qed.

(** ** The loop body of [query] *)

Lemma np_array_float32_length (values : list Float64.t) :
  List.length (np_array_float32 values) = List.length values.
Proof. apply length_map. Qed.

Lemma score_row_Return (query_vec : ndarray) (r : row) :
  List.length (row_vector r) = (4 * List.length query_vec)%nat ->
  exists db_vec,
    frombuffer (row_vector r) = Return db_vec /\
    score_row query_vec r =
    Return {| res_id := row_id r;
              res_score := score_of query_vec db_vec;
              res_metadata := row_metadata r |}.
Proof.
  intros Hlen. unfold score_row, cosine_score, np_dot.
  destruct (frombuffer_cases (row_vector r)) as [(cells & E & Hc) | (_ & Hn)].
  - exists cells. split; [assumption|]. rewrite E. cbn [bind].
    replace (Nat.eqb (List.length query_vec) (List.length cells)) with true
      by (symmetry; apply Nat.eqb_eq; lia).
    reflexivity.
  - now destruct (Hn (List.length query_vec)).
Qed.

Lemma score_row_Raise (query_vec : ndarray) (r : row) :
  List.length (row_vector r) <> (4 * List.length query_vec)%nat ->
  score_row query_vec r = Raise ValueError.
Proof.
  intros Hlen. unfold score_row, cosine_score, np_dot.
  destruct (frombuffer_cases (row_vector r)) as [(cells & E & Hc) | (E & _)];
    rewrite E; [|reflexivity].
  cbn [bind].
  replace (Nat.eqb (List.length query_vec) (List.length cells)) with false
    by (symmetry; apply Nat.eqb_neq; lia).
  reflexivity.
Qed.

Lemma score_row_inv (query_vec : ndarray) (r : row) (e : match_result) :
  score_row query_vec r = Return e ->
  exists db_vec,
    frombuffer (row_vector r) = Return db_vec /\
    e = {| res_id := row_id r;
           res_score := score_of query_vec db_vec;
           res_metadata := row_metadata r |}.
Proof.
  intros H.
  destruct (Nat.eq_dec (List.length (row_vector r)) (4 * List.length query_vec))
    as [Hlen | Hlen].
  - destruct (score_row_Return query_vec r Hlen) as (db_vec & Hb & Hs).
    exists db_vec. split; [assumption | congruence].
  - rewrite (score_row_Raise query_vec r Hlen) in H. discriminate.
Qed.

Lemma scored_ids (query_vec : ndarray) (rows : table) (scored : list match_result) :
  for_each (score_row query_vec) rows = Return scored ->
  map res_id scored = map row_id rows.
Proof.
  intros H. apply for_each_Return_inv in H.
  induction H as [|r e rows scored Hre _ IH]; [reflexivity|].
  cbn [map]. rewrite IH. f_equal.
  apply score_row_inv in Hre. destruct Hre as (? & _ & ->). reflexivity.
Qed.

(** ** The connector on the local backend *)

Lemma local_client (cfg : option Config) (env : Environment) :
  client (__init__ "local" cfg env) =
  sqlite_connection (db_path (config (__init__ "local" cfg env))).
Proof. reflexivity. Qed.

Lemma upsert_local (cfg : option Config) (env : Environment) (dbs : databases)
    (collection_name : string) (vectors : list vec) :
  let self := __init__ "local" cfg env in
  upsert self dbs collection_name vectors =
  (Return true,
   write_db dbs (db_path (config self))
     (fold_left (fun t v => insert_or_replace t (row_of_vec collection_name v))
                vectors (dbs (db_path (config self))))).
Proof. reflexivity. Qed.

Lemma query_local (cfg : option Config) (env : Environment) (dbs : databases)
    (collection_name : string) (vector : list Float64.t) (top_k : Z) :
  let self := __init__ "local" cfg env in
  query self dbs collection_name vector top_k =
  (results <- for_each (score_row (np_array_float32 vector))
                (select_collection (dbs (db_path (config self)))
                   collection_name) ;;
   Return (slice_to (list_sort score_lt true results) top_k),
   dbs).
Proof. reflexivity. Qed.

(** A local query either scores every row, giving [scored], or stops at the
    first exception. *)
Ltac local_query scored Hscored :=
  rewrite !query_local; cbn [fst];
  destruct (for_each _ _) as [scored| |] eqn:Hscored; try discriminate;
  cbn [bind].

(** * The claims *)

(** ** C1: records that cannot be scored *)

(** C1, counterexample.  The claim says a record whose length differs from
    the query's, or a zero-magnitude vector, is skipped while the query
    succeeds.  Here a length-2 query over the three length-3 records of the
    ranking example raises [ValueError] for the whole query, and the zero
    vector "b" of the second store is returned, with a NaN score. *)
Lemma query_skips_nothing_counterexample :
  fst (query local_connector ranking_store "docs" (floats [1; 0]) 5)
  = Raise ValueError /\
  fst (query local_connector zero_vector_store "docs" (floats [1; 0]) 5)
  = Return
      [ entry "a" (S754_finite false 6369051563524096 (-53));
        entry "b" S754_nan;
        entry "c" (S754_finite false 4503599627370496 (-52)) ].
Proof. split; vm_compute; reflexivity. Qed.

(** C1, amended.  A local query skips no record.  When every stored vector
    of the collection has the length of the query vector, the query succeeds
    and ranks exactly one entry per record of the collection (zero-magnitude
    vectors included) before truncating to [top_k]; when some stored vector
    has another length, the whole query raises [ValueError]. *)
Theorem query_scores_every_record (cfg : option Config) (env : Environment)
    (dbs : databases) (collection_name : string) (vector : list Float64.t)
    (top_k : Z) :
  let self := __init__ "local" cfg env in
  let rows := select_collection (dbs (db_path (config self))) collection_name in
  (Forall (fun r => List.length (row_vector r) = (4 * List.length vector)%nat) rows ->
   exists ranked,
     fst (query self dbs collection_name vector top_k)
     = Return (slice_to ranked top_k) /\
     Permutation (map res_id ranked) (map row_id rows)) /\
  (Exists (fun r => List.length (row_vector r) <> (4 * List.length vector)%nat) rows ->
   fst (query self dbs collection_name vector top_k) = Raise ValueError).
Proof.
  intros self rows. subst self. rewrite query_local. cbn [fst]. fold rows.
  split.
  - intros Hall.
    destruct (for_each_Return (score_row (np_array_float32 vector)) rows)
      as [scored Hscored].
    { eapply Forall_impl; [|exact Hall]. intros r Hr.
      destruct (score_row_Return (np_array_float32 vector) r) as (d & _ & Hs).
      - now rewrite np_array_float32_length.
      - eauto. }
    rewrite Hscored. cbn [bind].
    exists (list_sort score_lt true scored). split; [reflexivity|].
    rewrite <- (scored_ids _ _ _ Hscored).
    apply Permutation_map, list_sort_perm.
  - intros Hex.
    rewrite (for_each_Raise (score_row (np_array_float32 vector)) ValueError rows);
      [reflexivity | |].
    + apply Forall_forall. intros r _.
      destruct (Nat.eq_dec (List.length (row_vector r)) (4 * List.length vector))
        as [Hlen | Hlen].
      * left.
        destruct (score_row_Return (np_array_float32 vector) r) as (d & _ & Hs).
        -- now rewrite np_array_float32_length.
        -- eauto.
      * right. apply score_row_Raise. now rewrite np_array_float32_length.
    + eapply Exists_impl; [|exact Hex]. intros r Hr.
      apply score_row_Raise. now rewrite np_array_float32_length.
Qed.

(** Both cases on the example stores: the zero vector is ranked with the
    others, and a length-2 query over length-3 records raises. *)
Lemma query_scores_every_record_witness :
  (exists ranked,
      fst (query local_connector zero_vector_store "docs" (floats [1; 0]) 5)
      = Return (slice_to ranked 5) /\
      Permutation (map res_id ranked) ["a"%string; "b"%string; "c"%string]) /\
  fst (query local_connector ranking_store "docs" (floats [1; 0]) 5)
  = Raise ValueError.
Proof.
  split.
  - apply (query_scores_every_record None plain_environment zero_vector_store
             "docs" (floats [1; 0]) 5).
    vm_compute. repeat constructor.
  - apply (query_scores_every_record None plain_environment ranking_store
             "docs" (floats [1; 0]) 5).
    vm_compute. apply Exists_cons_hd. discriminate.
Defined.

(** ** C2: what [upsert] returns *)

(** C2, counterexample.  Two records are written and two rows are in the
    collection afterwards, yet the call returns [True], which as an integer
    is 1. *)
Lemma upsert_returns_count_counterexample :
  fst (upsert local_connector no_databases "docs"
         [record "a" [1; 0]; record "b" [0; 1]]) = Return true /\
  List.length
    (select_collection
       (snd (upsert local_connector no_databases "docs"
               [record "a" [1; 0]; record "b" [0; 1]]) "./vectordb.sqlite"%string)
       "docs") = 2%nat /\
  int_of_bool true <> 2.
Proof. repeat split; vm_compute; congruence. Qed.

(** C2, amended.  On the local backend [upsert] returns the boolean [True]
    whatever the number of records, after writing every record of the list:
    each id of the list is then present in the collection. *)
Theorem upsert_returns_true (cfg : option Config) (env : Environment)
    (dbs : databases) (collection_name : string) (vectors : list vec) :
  let self := __init__ "local" cfg env in
  fst (upsert self dbs collection_name vectors) = Return true /\
  Forall (fun v =>
            In (vec_id v)
               (map row_id
                  (select_collection
                     (snd (upsert self dbs collection_name vectors)
                          (db_path (config self)))
                     collection_name)))
         vectors.
Proof.
  intros self. subst self. rewrite upsert_local. cbn [fst snd].
  split; [reflexivity|].
  rewrite write_db_same. apply Forall_forall. intros v Hv.
  apply ids_insert_many. left. now apply in_map.
Qed.

(** ** C3: truncation to [top_k] *)

(** C3, counterexample.  With [top_k = -1] the query over the three records
    of the ranking example returns two entries, not the empty sequence. *)
Lemma query_negative_top_k_counterexample :
  fst (query local_connector ranking_store "docs" (floats [1; 0; 0]) (-1))
  = Return
      [ entry "a" (S754_finite false 4503599627370496 (-52));
        entry "c" (S754_finite false 4503599627370496 (-52)) ].
Proof. vm_compute. reflexivity. Qed.

(** C3, amended.  A local query that succeeds with [top_k >= 0] returns the
    first [top_k] entries of the ranking of all the records of the collection
    (all of them when there are fewer), the ranking being what the query
    itself returns when [top_k] is the number of records; so for [top_k = 0]
    the result is the empty sequence. *)
Theorem query_top_k (cfg : option Config) (env : Environment)
    (dbs : databases) (collection_name : string) (vector : list Float64.t)
    (top_k : Z) (results : list match_result) :
  let self := __init__ "local" cfg env in
  let rows := select_collection (dbs (db_path (config self))) collection_name in
  0 <= top_k ->
  fst (query self dbs collection_name vector top_k) = Return results ->
  exists ranked,
    fst (query self dbs collection_name vector (Z.of_nat (List.length rows)))
    = Return ranked /\
    List.length ranked = List.length rows /\
    results = firstn (Z.to_nat top_k) ranked /\
    (top_k = 0 -> results = []).
Proof.
  intros self rows Hk. subst self rows. local_query scored Hscored.
  intros H. injection H as <-.
  set (rows := select_collection _ _) in *.
  assert (Hlen : List.length (list_sort score_lt true scored) = List.length rows).
  { rewrite (Permutation_length (list_sort_perm score_lt true scored)).
    rewrite <- (length_map res_id), (scored_ids _ _ _ Hscored).
    apply length_map. }
  exists (list_sort score_lt true scored).
  split; [|split; [exact Hlen|split]].
  - f_equal. unfold slice_to.
    replace (0 <=? Z.of_nat (List.length rows)) with true
      by (symmetry; apply Z.leb_le; lia).
    rewrite Nat2Z.id. apply firstn_all2. lia.
  - unfold slice_to.
    now replace (0 <=? top_k) with true by (symmetry; apply Z.leb_le; lia).
  - intros ->. reflexivity.
Qed.

(** On the ranking example, [top_k = 2] gives the first two entries. *)
Lemma query_top_k_witness :
  exists ranked,
    fst (query local_connector ranking_store "docs" (floats [1; 0; 0])
           (Z.of_nat
              (List.length
                 (select_collection
                    (ranking_store (db_path (config local_connector))) "docs"))))
    = Return ranked /\
    List.length ranked
    = List.length (select_collection
                     (ranking_store (db_path (config local_connector))) "docs") /\
    [entry "a" (Float64.of_Z 1); entry "c" (Float64.of_Z 1)]
    = firstn (Z.to_nat 2) ranked /\
    (2 = 0 -> [entry "a" (Float64.of_Z 1); entry "c" (Float64.of_Z 1)] = []).
Proof.
  apply (query_top_k None plain_environment ranking_store "docs"
           (floats [1; 0; 0]) 2).
  - lia.
  - vm_compute. reflexivity.
Defined.

(** ** C4: precision and range of the score *)




(** ** C5: ranking order *)




(** ** C6: last write wins *)



(** ** C7: a collection nothing was written to *)

(** C7.  When the table holds no row of a collection and every upsert since
    went to other collections, a local query against it returns the empty
    list, without an exception, whatever the query vector and [top_k]. *)
Theorem query_unpopulated_collection (cfg : option Config) (env : Environment)
    (dbs : databases) (calls : list (string * list vec))
    (collection_name : string) (vector : list Float64.t) (top_k : Z) :
  let self := __init__ "local" cfg env in
  select_collection (dbs (db_path (config self))) collection_name = [] ->
  Forall (fun call => fst call <> collection_name) calls ->
  query self (run_upserts self dbs calls) collection_name vector top_k
  = (Return [], run_upserts self dbs calls).
Proof.
  intros self Hempty Hcalls. subst self.
  assert (Hsel : select_collection
                   (run_upserts (__init__ "local" cfg env) dbs calls
                      (db_path (config (__init__ "local" cfg env))))
                   collection_name = []).
  { unfold run_upserts. revert dbs Hempty.
    induction Hcalls as [|[written vs] calls Hw _ IH]; intros dbs Hempty;
      [exact Hempty|].
    cbn [fold_left fst snd]. apply IH.
    rewrite upsert_local. cbn [snd]. rewrite write_db_same.
    rewrite select_insert_many_other by exact Hw. exact Hempty. }
  rewrite query_local, Hsel. cbn [for_each bind list_sort].
  f_equal. f_equal. unfold slice_to. destruct (0 <=? top_k); apply firstn_nil.
Qed.

(** Upserts into "docs" and "notes", then a query against "images". *)
Lemma query_unpopulated_collection_witness :
  query local_connector
    (run_upserts local_connector no_databases
       [("docs"%string, [record "a" [1; 0]]); ("notes"%string, [record "b" [0; 1]])])
    "images" (floats [1; 0]) 5
  = (Return [],
     run_upserts local_connector no_databases
       [("docs"%string, [record "a" [1; 0]]); ("notes"%string, [record "b" [0; 1]])]).
Proof.
  apply (query_unpopulated_collection None plain_environment no_databases
           [("docs"%string, [record "a" [1; 0]]);
            ("notes"%string, [record "b" [0; 1]])]
           "images" (floats [1; 0]) 5).
  - reflexivity.
  - repeat constructor; discriminate.
Defined.

(** ** C8: simulation fallback *)

(** C8.  A connector for "pinecone" built with no API key in the config or
    the environment, or for "weaviate" built with no URL, is constructed with
    the simulated client; from then on every [upsert] returns [True] and
    leaves the databases as they were, and every [query] returns the one
    placeholder result, neither raising. *)
Theorem simulation_fallback (provider_name : string) (cfg : option Config)
    (env : Environment) :
  let self := __init__ provider_name cfg env in
  (provider_name = "pinecone"%string /\
   truthy (cfg_api_key (config self)) = false /\
   truthy (PINECONE_API_KEY env) = false) \/
  (provider_name = "weaviate"%string /\
   truthy (cfg_url (config self)) = false) ->
  (client self = pinecone_simulated \/ client self = weaviate_simulated) /\
  (forall dbs collection_name vectors,
      upsert self dbs collection_name vectors = (Return true, dbs)) /\
  (forall dbs collection_name vector top_k,
      query self dbs collection_name vector top_k
      = (Return [simulated_match], dbs)).
Proof.
  intros self. subst self. unfold __init__. cbn [config].
  set (c := match cfg with Some c => c | None => empty_config end).
  intros [(-> & Hkey & Henv) | (-> & Hurl)].
  - assert (Hc : _initialize_client "pinecone" c env = pinecone_simulated).
    { unfold _initialize_client, py_or. cbn [String.eqb Ascii.eqb Bool.eqb].
      destruct (pinecone_installed env); [|reflexivity].
      rewrite Hkey.
      destruct (PINECONE_API_KEY env) as [[|a s]|]; try reflexivity.
      discriminate Henv. }
    unfold upsert, query. cbn [provider client]. rewrite Hc.
    repeat split; auto.
  - assert (Hc : _initialize_client "weaviate" c env = weaviate_simulated).
    { unfold _initialize_client. cbn [String.eqb Ascii.eqb Bool.eqb].
      destruct (weaviate_installed env); [|reflexivity].
      destruct (cfg_url c) as [[|a s]|]; try reflexivity.
      discriminate Hurl. }
    unfold upsert, query. cbn [provider client]. rewrite Hc.
    repeat split; auto.
Qed.

(** Pinecone with no config and an empty environment. *)
Lemma simulation_fallback_witness :
  (client (__init__ "pinecone" None plain_environment) = pinecone_simulated \/
   client (__init__ "pinecone" None plain_environment) = weaviate_simulated) /\
  (forall dbs collection_name vectors,
      upsert (__init__ "pinecone" None plain_environment) dbs collection_name vectors
      = (Return true, dbs)) /\
  (forall dbs collection_name vector top_k,
      query (__init__ "pinecone" None plain_environment) dbs collection_name
            vector top_k
      = (Return [simulated_match], dbs)).
Proof.
  apply (simulation_fallback "pinecone" None plain_environment).
  left. repeat split; reflexivity.
Defined.

(** ** C9: vector bytes *)



(** ** C10: a query writes nothing *)

(** C10.  [query] leaves the databases as it found them, whatever the
    collection, the query vector and [top_k], and whether it returns or
    raises; on the local backend it only runs a [SELECT]. *)
Theorem query_read_only (self : VectorDBConnector) (dbs : databases)
    (collection_name : string) (vector : list Float64.t) (top_k : Z) :
  snd (query self dbs collection_name vector top_k) = dbs.
Proof.
  unfold query.
  destruct (String.eqb (provider self) "local").
  - now destruct (client self).
  - now destruct (String.eqb (provider self) "pinecone"), (client self).
Qed.

(** * Further properties of the connector *)

(** ** Which backend a connector gets *)

(** X1.  A provider name other than "local", "pinecone" and "weaviate" opens
    the SQLite database like the local backend, but [upsert] and [query] only
    test for "local": every upsert returns [True] without writing and every
    query returns the placeholder. *)
Theorem unknown_provider_simulates (provider_name : string)
    (cfg : option Config) (env : Environment) :
  provider_name <> "local"%string ->
  provider_name <> "pinecone"%string ->
  provider_name <> "weaviate"%string ->
  let self := __init__ provider_name cfg env in
  client self = sqlite_connection (db_path (config self)) /\
  (forall dbs collection_name vectors,
      upsert self dbs collection_name vectors = (Return true, dbs)) /\
  (forall dbs collection_name vector top_k,
      query self dbs collection_name vector top_k
      = (Return [simulated_match], dbs)).
Proof.
  intros Hl Hp Hw self. subst self.
  apply String.eqb_neq in Hl, Hp, Hw.
  unfold __init__, _initialize_client, upsert, query. cbn [provider client config].
  rewrite Hl, Hp, Hw. repeat split.
Qed.

(** A misspelt "Local" simulates although the database file is opened. *)
Lemma unknown_provider_simulates_witness :
  client (__init__ "Local" None plain_environment)
  = sqlite_connection (db_path (config (__init__ "Local" None plain_environment))) /\
  (forall dbs collection_name vectors,
      upsert (__init__ "Local" None plain_environment) dbs collection_name vectors
      = (Return true, dbs)) /\
  (forall dbs collection_name vector top_k,
      query (__init__ "Local" None plain_environment) dbs collection_name
            vector top_k
      = (Return [simulated_match], dbs)).
Proof.
  apply (unknown_provider_simulates "Local" None plain_environment);
    discriminate.
Defined.


(** X3.  A "pinecone" connector is live exactly when the library imports and
    a non-empty API key is found, the key of the config taking precedence
    over PINECONE_API_KEY; a live connector hands [upsert] and [query] to the
    index named after the collection and leaves the databases alone. *)
Theorem pinecone_client_selection (cfg : option Config) (env : Environment) :
  let self := __init__ "pinecone" cfg env in
  (truthy (cfg_api_key (config self)) = true ->
   pinecone_key (config self) env = cfg_api_key (config self)) /\
  (truthy (cfg_api_key (config self)) = false ->
   pinecone_key (config self) env = PINECONE_API_KEY env) /\
  (client self = pinecone_simulated <->
   pinecone_installed env = false \/
   truthy (pinecone_key (config self) env) = false) /\
  (forall key,
      pinecone_installed env = true ->
      pinecone_key (config self) env = Some key -> key <> ""%string ->
      client self = Pinecone key /\
      (forall dbs collection_name vectors,
          upsert self dbs collection_name vectors
          = (Delegated (IndexUpsert key collection_name), dbs)) /\
      (forall dbs collection_name vector top_k,
          query self dbs collection_name vector top_k
          = (Delegated (IndexQuery key collection_name top_k), dbs))).
Proof.
  intros self. subst self. unfold __init__. cbn [config].
  set (c := match cfg with Some c => c | None => empty_config end).
  unfold pinecone_key.
  split; [|split; [|split]].
  - unfold py_or. now intros ->.
  - unfold py_or. now intros ->.
  - unfold _initialize_client. cbn [String.eqb Ascii.eqb Bool.eqb client].
    destruct (pinecone_installed env); [|intuition].
    destruct (py_or (cfg_api_key c) (PINECONE_API_KEY env)) as [[|a s]|];
      cbn [truthy String.eqb negb];
      split; intros H; try reflexivity; try discriminate;
      try (right; reflexivity); destruct H; discriminate.
  - intros key Hinst Hkey Hne.
    assert (Hc : _initialize_client "pinecone" c env = Pinecone key).
    { unfold _initialize_client. cbn [String.eqb Ascii.eqb Bool.eqb].
      rewrite Hinst, Hkey. destruct key; [contradiction | reflexivity]. }
    unfold upsert, query. cbn [provider client]. rewrite Hc.
    repeat split.
Qed.

(** With both keys set the key of the config is used. *)
Lemma pinecone_client_selection_witness :
  client (__init__ "pinecone" (Some keyed_config) full_environment)
  = Pinecone "cfg-key" /\
  (forall dbs collection_name vectors,
      upsert (__init__ "pinecone" (Some keyed_config) full_environment)
             dbs collection_name vectors
      = (Delegated (IndexUpsert "cfg-key" collection_name), dbs)) /\
  (forall dbs collection_name vector top_k,
      query (__init__ "pinecone" (Some keyed_config) full_environment)
            dbs collection_name vector top_k
      = (Delegated (IndexQuery "cfg-key" collection_name top_k), dbs)).
Proof.
  apply (pinecone_client_selection (Some keyed_config) full_environment).
  - reflexivity.
  - reflexivity.
  - discriminate.
Defined.

(** ** What [upsert] does to the table *)

Local Abbreviation write_rows collection_name :=
  (fold_left (fun t v => insert_or_replace t (row_of_vec collection_name v))).

Lemma write_rows_length_le (vs : list vec) (t : table) (collection : string) :
  (List.length (select_collection (write_rows collection vs t) collection)
   <= List.length (select_collection t collection) + List.length vs)%nat.
Proof.
  revert t. induction vs as [|v vs IH]; intros t; cbn [fold_left List.length].
  - lia.
  - specialize (IH (insert_or_replace t (row_of_vec collection v))).
    rewrite select_insert_vec, length_app in IH. cbn [List.length] in IH.
    pose proof (filter_length_le
                  (fun x => negb (String.eqb (row_id x) (vec_id v)))
                  (select_collection t collection)).
    lia.
Qed.

(** Under the primary key the rows of one collection have distinct ids. *)
Lemma primary_key_ids (t : table) (collection : string) :
  primary_key t -> NoDup (map row_id (select_collection t collection)).
Proof.
  unfold primary_key, select_collection.
  induction t as [|x t IH]; cbn [map filter]; intros H; [constructor|].
  inversion H as [|? ? Hx Ht]; subst.
  destruct (String.eqb (row_collection x) collection) eqn:E; [|now apply IH].
  cbn [map]. constructor; [|now apply IH].
  intros Hin. apply Hx.
  apply in_map_iff in Hin. destruct Hin as (y & Hy & Hin).
  apply filter_In in Hin. destruct Hin as [Hin Ec].
  apply String.eqb_eq in E, Ec.
  apply in_map_iff. exists y. split; [|assumption].
  unfold row_key. congruence.
Qed.

Lemma insert_or_replace_primary_key (t : table) (r : row) :
  primary_key t -> primary_key (insert_or_replace t r).
Proof.
  unfold primary_key, insert_or_replace. intros H.
  rewrite map_app. apply NoDup_app.
  - induction t as [|x t IH]; cbn [filter map]; [constructor|].
    inversion H as [|? ? Hx Ht]; subst.
    destruct (negb _); [|now apply IH].
    cbn [map]. constructor; [|now apply IH].
    intros Hin. apply Hx.
    apply in_map_iff in Hin. destruct Hin as (y & Hy & Hin).
    apply filter_In in Hin. apply in_map_iff. exists y. tauto.
  - repeat constructor. intros [].
  - intros k Hin [<- | []].
    apply in_map_iff in Hin. destruct Hin as (y & Hy & Hin).
    apply filter_In in Hin. destruct Hin as [_ Hne].
    unfold row_key in Hy. injection Hy as Hc Hi.
    unfold same_key in Hne. rewrite Hc, Hi, !String.eqb_refl in Hne.
    discriminate.
Qed.

Lemma write_rows_primary_key (vs : list vec) (t : table) (collection : string) :
  primary_key t -> primary_key (write_rows collection vs t).
Proof.
  revert t. induction vs as [|v vs IH]; intros t H; [exact H|].
  cbn [fold_left]. now apply IH, insert_or_replace_primary_key.
Qed.

(** Removing one id from rows with distinct ids removes at most one row. *)
Lemma filter_id_length (l : table) (id : string) :
  NoDup (map row_id l) ->
  (List.length l
   <= S (List.length (filter (fun x => negb (String.eqb (row_id x) id)) l)))%nat.
Proof.
  induction l as [|x l IH]; cbn [map filter List.length]; intros H; [lia|].
  inversion H as [|? ? Hx Hl]; subst.
  destruct (String.eqb (row_id x) id) eqn:E; cbn [negb List.length].
  - assert (Hsame : filter (fun y => negb (String.eqb (row_id y) id)) l = l).
    { apply forallb_filter_id, forallb_forall. intros y Hy.
      destruct (String.eqb (row_id y) id) eqn:Ey; [|reflexivity].
      apply String.eqb_eq in E, Ey. exfalso. apply Hx.
      rewrite E, <- Ey. now apply in_map. }
    rewrite Hsame. lia.
  - specialize (IH Hl). lia.
Qed.

Lemma filter_id_absent (l : table) (id : string) :
  ~ In id (map row_id l) ->
  filter (fun x => negb (String.eqb (row_id x) id)) l = l.
Proof.
  intros H. apply forallb_filter_id, forallb_forall. intros y Hy.
  destruct (String.eqb (row_id y) id) eqn:Ey; [|reflexivity].
  apply String.eqb_eq in Ey. exfalso. apply H. rewrite <- Ey. now apply in_map.
Qed.

Lemma write_rows_length_ge (vs : list vec) (t : table) (collection : string) :
  primary_key t ->
  (List.length (select_collection t collection)
   <= List.length (select_collection (write_rows collection vs t) collection))%nat.
Proof.
  revert t. induction vs as [|v vs IH]; intros t H; cbn [fold_left]; [lia|].
  specialize (IH _ (insert_or_replace_primary_key t (row_of_vec collection v) H)).
  rewrite select_insert_vec, length_app in IH. cbn [List.length] in IH.
  pose proof (filter_id_length (select_collection t collection) (vec_id v)
                (primary_key_ids t collection H)).
  lia.
Qed.

Lemma write_rows_length_fresh (vs : list vec) (t : table) (collection : string) :
  NoDup (map vec_id vs) ->
  (forall v, In v vs ->
             ~ In (vec_id v) (map row_id (select_collection t collection))) ->
  List.length (select_collection (write_rows collection vs t) collection)
  = (List.length (select_collection t collection) + List.length vs)%nat.
Proof.
  revert t. induction vs as [|v vs IH]; intros t Hnd Hfresh;
    cbn [fold_left List.length map] in *; [lia|].
  inversion Hnd as [|? ? Hv Hvs]; subst.
  rewrite IH; [| assumption |].
  - rewrite select_insert_vec, length_app.
    rewrite filter_id_absent by (apply Hfresh; now left).
    cbn [List.length]. lia.
  - intros u Hu Hin. apply ids_insert in Hin. destruct Hin as [Heq | Hin].
    + apply Hv. rewrite <- Heq. now apply in_map.
    + apply (Hfresh u); [now right | assumption].
Qed.

(** The table after a batch: the rows of other keys, in place, followed by
    what the batch writes into an empty table. *)
Lemma write_rows_split (vs : list vec) (t : table) (collection : string) :
  write_rows collection vs t
  = filter (fun x => negb (batch_key collection vs x)) t
    ++ write_rows collection vs [].
Proof.
  revert t. induction vs as [|v vs IH]; intros t.
  - cbn [fold_left]. rewrite app_nil_r. symmetry.
    apply forallb_filter_id, forallb_forall. intros x _.
    unfold batch_key. cbn [map existsb]. now rewrite andb_false_r.
  - cbn [fold_left]. rewrite IH.
    rewrite (IH (insert_or_replace [] (row_of_vec collection v))).
    unfold insert_or_replace at 1 2. cbn [filter app].
    rewrite filter_app, filter_filter, <- app_assoc. f_equal.
    apply filter_ext. intros x.
    unfold batch_key, same_key. cbn [map existsb row_of_vec row_collection row_id].
    destruct (String.eqb (row_collection x) collection),
      (String.eqb (row_id x) (vec_id v)),
      (existsb (String.eqb (row_id x)) (map vec_id vs)); reflexivity.
Qed.

Lemma write_rows_In (vs : list vec) (t : table) (collection : string) (x : row) :
  In x (write_rows collection vs t) ->
  In x t \/ exists v, In v vs /\ x = row_of_vec collection v.
Proof.
  revert t. induction vs as [|v vs IH]; intros t H; cbn [fold_left] in H;
    [now left|].
  apply IH in H. destruct H as [H | (u & Hu & ->)].
  - unfold insert_or_replace in H. apply in_app_or in H.
    destruct H as [H | [<- | []]].
    + apply filter_In in H. now left.
    + right. exists v. split; [now left | reflexivity].
  - right. exists u. split; [now right | reflexivity].
Qed.

Lemma write_rows_twice (vs : list vec) (t : table) (collection : string) :
  write_rows collection vs (write_rows collection vs t)
  = write_rows collection vs t.
Proof.
  rewrite (write_rows_split vs (write_rows collection vs t)).
  rewrite (write_rows_split vs t) at 1.
  rewrite filter_app, filter_filter.
  rewrite (write_rows_split vs t), <- app_assoc. f_equal.
  - apply filter_ext. intros x. now destruct (batch_key collection vs x).
  - replace (filter (fun x => negb (batch_key collection vs x))
               (write_rows collection vs [])) with (@nil row); [reflexivity|].
    symmetry. rewrite (filter_ext_in _ (fun _ => false)); [apply filter_false|].
    intros x Hx. apply write_rows_In in Hx.
    destruct Hx as [[] | (v & Hv & ->)].
    unfold batch_key. cbn [row_of_vec row_collection row_id].
    rewrite String.eqb_refl. cbn [andb]. apply negb_false_iff.
    apply existsb_exists. exists (vec_id v).
    split; [now apply in_map | apply String.eqb_refl].
Qed.



(** X5.  The primary key is an invariant of [upsert]: when no two rows of the
    table share (collection, id), the same holds after any sequence of
    upserts. *)
Theorem upsert_keeps_primary_key (cfg : option Config) (env : Environment)
    (dbs : databases) (calls : list (string * list vec)) :
  let self := __init__ "local" cfg env in
  let path := db_path (config self) in
  primary_key (dbs path) ->
  primary_key (run_upserts self dbs calls path).
Proof.
  intros self path. subst path self. unfold run_upserts.
  revert dbs. induction calls as [|[c vs] calls IH]; intros dbs H; [exact H|].
  cbn [fold_left fst snd]. apply IH.
  rewrite upsert_local. cbn [snd]. rewrite write_db_same.
  now apply write_rows_primary_key.
Qed.

(** From the empty database, with the id "a" written three times. *)
Lemma upsert_keeps_primary_key_witness :
  primary_key
    (run_upserts local_connector no_databases
       [("docs"%string, [record "a" [1; 0]; record "a" [0; 1]]);
        ("docs"%string, [record "b" [1; 1]; record "a" [1; 1]])]
       (db_path (config local_connector))).
Proof.
  apply (upsert_keeps_primary_key None plain_environment no_databases).
  constructor.
Defined.

(** X6.  One [upsert] of a list is the same as upserting its parts one after
    the other: both return [True] and leave the same databases. *)
Theorem upsert_append (cfg : option Config) (env : Environment)
    (dbs : databases) (collection_name : string) (vs1 vs2 : list vec) :
  let self := __init__ "local" cfg env in
  let dbs1 := snd (upsert self dbs collection_name vs1) in
  fst (upsert self dbs collection_name (vs1 ++ vs2))
  = fst (upsert self dbs1 collection_name vs2) /\
  forall p, snd (upsert self dbs collection_name (vs1 ++ vs2)) p
            = snd (upsert self dbs1 collection_name vs2) p.
Proof.
  intros self dbs1. subst dbs1 self. rewrite !upsert_local. cbn [fst snd].
  split; [reflexivity|]. intros p.
  rewrite write_db_same, fold_left_app. unfold write_db.
  now destruct (String.eqb p _).
Qed.

(** X7.  [upsert] is idempotent: the same list upserted a second time leaves
    every database as the first call left it. *)
Theorem upsert_idempotent (cfg : option Config) (env : Environment)
    (dbs : databases) (collection_name : string) (vectors : list vec) :
  let self := __init__ "local" cfg env in
  let dbs1 := snd (upsert self dbs collection_name vectors) in
  forall p, snd (upsert self dbs1 collection_name vectors) p = dbs1 p.
Proof.
  intros self dbs1 p. subst dbs1 self. rewrite !upsert_local. cbn [snd].
  rewrite write_db_same, write_rows_twice. unfold write_db.
  now destruct (String.eqb p _).
Qed.

(** X8.  Under the primary key an [upsert] never shrinks the collection and
    grows it by at most the number of records; it grows it by exactly that
    number when the ids of the records are pairwise distinct and none is in
    the collection yet. *)
Theorem upsert_collection_size (cfg : option Config) (env : Environment)
    (dbs : databases) (collection_name : string) (vectors : list vec) :
  let self := __init__ "local" cfg env in
  let path := db_path (config self) in
  let before := select_collection (dbs path) collection_name in
  let after :=
    select_collection (snd (upsert self dbs collection_name vectors) path)
                      collection_name in
  primary_key (dbs path) ->
  (List.length before <= List.length after <= List.length before + List.length vectors)%nat /\
  (NoDup (map vec_id vectors) ->
   (forall v, In v vectors -> ~ In (vec_id v) (map row_id before)) ->
   List.length after = (List.length before + List.length vectors)%nat).
Proof.
  intros self path before after Hpk. subst after before path self.
  rewrite upsert_local. cbn [snd]. rewrite write_db_same.
  split; [split|].
  - now apply write_rows_length_ge.
  - apply write_rows_length_le.
  - apply write_rows_length_fresh.
Qed.

(** Two new ids on top of the three records of the ranking example. *)
Lemma upsert_collection_size_witness :
  List.length
    (select_collection
       (snd (upsert local_connector ranking_store "docs"
               [record "d" [1; 1; 1]; record "e" [2; 2; 2]])
            (db_path (config local_connector))) "docs")
  = Nat.add
      (List.length
         (select_collection (ranking_store (db_path (config local_connector))) "docs"))
      (List.length [record "d" [1; 1; 1]; record "e" [2; 2; 2]]).
Proof.
  apply (upsert_collection_size None plain_environment ranking_store "docs"
           [record "d" [1; 1; 1]; record "e" [2; 2; 2]]).
  - vm_compute. repeat constructor; cbn; intuition discriminate.
  - repeat constructor; cbn; intuition discriminate.
  - intros v [<- | [<- | []]]; cbn; intuition discriminate.
Defined.

(** X9.  Collections are isolated: an [upsert] into one collection does not
    change what a query against another collection returns. *)
Theorem query_other_collection_unchanged (cfg : option Config)
    (env : Environment) (dbs : databases) (written queried : string)
    (vectors : list vec) (vector : list Float64.t) (top_k : Z) :
  written <> queried ->
  let self := __init__ "local" cfg env in
  fst (query self (snd (upsert self dbs written vectors)) queried vector top_k)
  = fst (query self dbs queried vector top_k).
Proof.
  intros Hne self. subst self.
  rewrite !query_local, upsert_local. cbn [fst snd].
  rewrite write_db_same. now rewrite select_insert_many_other.
Qed.

Lemma query_other_collection_unchanged_witness :
  fst (query local_connector
         (snd (upsert local_connector ranking_store "notes" [record "a" [9; 9]]))
         "docs" (floats [1; 0; 0]) 3)
  = fst (query local_connector ranking_store "docs" (floats [1; 0; 0]) 3).
Proof.
  apply (query_other_collection_unchanged None plain_environment ranking_store
           "notes" "docs" [record "a" [9; 9]] (floats [1; 0; 0]) 3).
  discriminate.
Defined.

(** ** What a local query returns *)

Lemma scored_In (query_vec : ndarray) (rows : table) (scored : list match_result)
    (e : match_result) :
  for_each (score_row query_vec) rows = Return scored ->
  In e scored ->
  exists r, In r rows /\ score_row query_vec r = Return e.
Proof.
  intros H. apply for_each_Return_inv in H.
  induction H as [|r e' rows scored Hre _ IH]; intros Hin; [contradiction|].
  destruct Hin as [<- | Hin].
  - exists r. split; [now left | assumption].
  - destruct (IH Hin) as (r' & Hr' & Hs). exists r'. split; [now right | assumption].
Qed.

Lemma scored_of_row (query_vec : ndarray) (rows : table)
    (scored : list match_result) (r : row) :
  for_each (score_row query_vec) rows = Return scored ->
  In r rows ->
  exists e, In e scored /\ score_row query_vec r = Return e.
Proof.
  intros H. apply for_each_Return_inv in H.
  induction H as [|r' e rows scored Hre _ IH]; intros Hin; [contradiction|].
  destruct Hin as [<- | Hin].
  - exists e. split; [now left | assumption].
  - destruct (IH Hin) as (e' & He' & Hs). exists e'. split; [now right | assumption].
Qed.

Lemma NoDup_firstn {A : Type} (n : nat) (l : list A) :
  NoDup l -> NoDup (firstn n l).
Proof.
  intros H. rewrite <- (firstn_skipn n l) in H.
  now apply NoDup_app_remove_r in H.
Qed.

Lemma slice_to_all {A : Type} (l : list A) (k : Z) :
  Z.of_nat (List.length l) <= k -> slice_to l k = l.
Proof.
  intros H. unfold slice_to.
  replace (0 <=? k) with true by (symmetry; apply Z.leb_le; lia).
  apply firstn_all2. lia.
Qed.

(** X10.  Under the primary key a local query returns no id twice, and every
    id it returns is the id of a record of the collection. *)
Theorem query_ids_distinct (cfg : option Config) (env : Environment)
    (dbs : databases) (collection_name : string) (vector : list Float64.t)
    (top_k : Z) (results : list match_result) :
  let self := __init__ "local" cfg env in
  let rows := select_collection (dbs (db_path (config self))) collection_name in
  primary_key (dbs (db_path (config self))) ->
  fst (query self dbs collection_name vector top_k) = Return results ->
  NoDup (map res_id results) /\
  incl (map res_id results) (map row_id rows).
Proof.
  intros self rows Hpk. subst rows self. local_query scored Hscored.
  intros H. injection H as <-.
  pose proof (primary_key_ids _ collection_name Hpk) as Hids.
  rewrite <- (scored_ids _ _ _ Hscored) in *.
  assert (Hranked : Permutation (map res_id scored)
                      (map res_id (list_sort score_lt true scored)))
    by (apply Permutation_map, Permutation_sym, list_sort_perm).
  split.
  - unfold slice_to. destruct (0 <=? top_k); rewrite <- firstn_map;
      apply NoDup_firstn; exact (Permutation_NoDup Hranked Hids).
  - intros id Hid. apply in_map_iff in Hid. destruct Hid as (e & <- & He).
    apply slice_to_incl in He.
    apply (Permutation_in _ (list_sort_perm score_lt true scored)) in He.
    now apply in_map.
Qed.

Lemma query_ids_distinct_witness :
  NoDup (map res_id [entry "a" (Float64.of_Z 1); entry "c" (Float64.of_Z 1)]) /\
  incl (map res_id [entry "a" (Float64.of_Z 1); entry "c" (Float64.of_Z 1)])
       (map row_id
          (select_collection (ranking_store (db_path (config local_connector)))
             "docs")).
Proof.
  apply (query_ids_distinct None plain_environment ranking_store "docs"
           (floats [1; 0; 0]) 2).
  - vm_compute. repeat constructor; cbn; intuition discriminate.
  - vm_compute. reflexivity.
Defined.



(** X12.  With a negative [top_k] a local query that succeeds returns the
    ranking of all the records without its last [-top_k] entries, which is
    the empty list only when the collection has at most [-top_k] records. *)
Theorem query_negative_top_k (cfg : option Config) (env : Environment)
    (dbs : databases) (collection_name : string) (vector : list Float64.t)
    (top_k : Z) (results : list match_result) :
  let self := __init__ "local" cfg env in
  let rows := select_collection (dbs (db_path (config self))) collection_name in
  top_k < 0 ->
  fst (query self dbs collection_name vector top_k) = Return results ->
  exists ranked,
    fst (query self dbs collection_name vector (Z.of_nat (List.length rows)))
    = Return ranked /\
    results = firstn (List.length ranked - Z.to_nat (- top_k)) ranked /\
    List.length results = (List.length rows - Z.to_nat (- top_k))%nat.
Proof.
  intros self rows Hk. subst self rows. local_query scored Hscored.
  intros H. injection H as <-.
  set (rows := select_collection _ _) in *.
  assert (Hlen : List.length (list_sort score_lt true scored) = List.length rows).
  { rewrite (Permutation_length (list_sort_perm score_lt true scored)).
    rewrite <- (length_map res_id), (scored_ids _ _ _ Hscored).
    apply length_map. }
  exists (list_sort score_lt true scored).
  assert (Hs : slice_to (list_sort score_lt true scored) top_k
               = firstn (List.length (list_sort score_lt true scored)
                         - Z.to_nat (- top_k))
                        (list_sort score_lt true scored)).
  { unfold slice_to.
    now replace (0 <=? top_k) with false by (symmetry; apply Z.leb_gt; lia). }
  split; [|split].
  - f_equal. apply slice_to_all. lia.
  - exact Hs.
  - rewrite Hs, length_firstn. lia.
Qed.

Lemma query_negative_top_k_witness :
  exists ranked,
    fst (query local_connector ranking_store "docs" (floats [1; 0; 0])
           (Z.of_nat
              (List.length
                 (select_collection
                    (ranking_store (db_path (config local_connector))) "docs"))))
    = Return ranked /\
    [entry "a" (Float64.of_Z 1)]
    = firstn (List.length ranked - Z.to_nat (- (-2))) ranked /\
    List.length [entry "a" (Float64.of_Z 1)]
    = Nat.sub
        (List.length
           (select_collection (ranking_store (db_path (config local_connector)))
              "docs"))
        (Z.to_nat (- (-2))).
Proof.
  apply (query_negative_top_k None plain_environment ranking_store "docs"
           (floats [1; 0; 0]) (-2)).
  - lia.
  - vm_compute. reflexivity.
Defined.

(** ** Scores of zero vectors *)

Lemma zero_cell_mul_r (a z : Float32.t) :
  zero_cell z -> zero_cell (Float32.mul a z) \/ Float32.mul a z = nan_cell.
Proof.
  unfold zero_cell, Float32.mul.
  intros [-> | ->];
    [change (Float32.of_bits 0) with (S754_zero false)
    |change (Float32.of_bits (2 ^ 31)) with (S754_zero true)];
    destruct (Float32.of_bits a) as [[]|[]| |[] m e]; cbn; auto.
Qed.

Lemma zero_cell_mul_l (z b : Float32.t) :
  zero_cell z -> zero_cell (Float32.mul z b) \/ Float32.mul z b = nan_cell.
Proof.
  unfold zero_cell, Float32.mul.
  intros [-> | ->];
    [change (Float32.of_bits 0) with (S754_zero false)
    |change (Float32.of_bits (2 ^ 31)) with (S754_zero true)];
    destruct (Float32.of_bits b) as [[]|[]| |[] m e]; cbn; auto.
Qed.

Lemma zero_cell_mul (z1 z2 : Float32.t) :
  zero_cell z1 -> zero_cell z2 -> zero_cell (Float32.mul z1 z2).
Proof.
  unfold zero_cell. intros [-> | ->] [-> | ->]; vm_compute; auto.
Qed.

Lemma add_zero_or_nan (acc m : Float32.t) :
  acc = 0 \/ acc = nan_cell ->
  zero_cell m \/ m = nan_cell ->
  Float32.add acc m = 0 \/ Float32.add acc m = nan_cell.
Proof.
  unfold zero_cell.
  intros [-> | ->] [[-> | ->] | ->]; vm_compute; auto.
Qed.

Lemma dot_zero_r (a d : ndarray) (acc : Float32.t) :
  Forall zero_cell d -> acc = 0 \/ acc = nan_cell ->
  fold_left (fun acc xy => Float32.add acc (Float32.mul (fst xy) (snd xy)))
            (combine a d) acc = 0 \/
  fold_left (fun acc xy => Float32.add acc (Float32.mul (fst xy) (snd xy)))
            (combine a d) acc = nan_cell.
Proof.
  intros Hd. revert a acc.
  induction Hd as [|z d Hz Hd IH]; intros a acc Hacc.
  - destruct a; exact Hacc.
  - destruct a as [|x a]; [exact Hacc|].
    cbn [combine fold_left fst snd]. apply IH.
    apply add_zero_or_nan; [assumption | now apply zero_cell_mul_r].
Qed.

Lemma dot_zero_l (q b : ndarray) (acc : Float32.t) :
  Forall zero_cell q -> acc = 0 \/ acc = nan_cell ->
  fold_left (fun acc xy => Float32.add acc (Float32.mul (fst xy) (snd xy)))
            (combine q b) acc = 0 \/
  fold_left (fun acc xy => Float32.add acc (Float32.mul (fst xy) (snd xy)))
            (combine q b) acc = nan_cell.
Proof.
  intros Hq. revert b acc.
  induction Hq as [|z q Hz Hq IH]; intros b acc Hacc; [exact Hacc|].
  destruct b as [|y b]; [exact Hacc|].
  cbn [combine fold_left fst snd]. apply IH.
  apply add_zero_or_nan; [assumption | now apply zero_cell_mul_l].
Qed.

Lemma norm_zero (d : ndarray) : Forall zero_cell d -> np_linalg_norm d = 0.
Proof.
  intros Hd. unfold np_linalg_norm, dot_kernel.
  enough (H : fold_left
                (fun acc xy => Float32.add acc (Float32.mul (fst xy) (snd xy)))
                (combine d d) Float32.zero = 0) by now rewrite H.
  unfold Float32.zero. generalize (eq_refl 0).
  generalize 0 at 1 3 as acc.
  induction Hd as [|z d Hz Hd IH]; intros acc Hacc; [exact Hacc|].
  cbn [combine fold_left fst snd]. apply IH. subst acc.
  destruct (zero_cell_mul z z Hz Hz) as [-> | ->]; reflexivity.
Qed.

Lemma div_zero_or_nan (num den : Float32.t) :
  num = 0 \/ num = nan_cell ->
  zero_cell den \/ den = nan_cell ->
  Float32.to_float64 (Float32.div num den) = S754_nan.
Proof.
  unfold zero_cell.
  intros [-> | ->] [[-> | ->] | ->]; vm_compute; reflexivity.
Qed.

Lemma score_of_zero_r (q d : ndarray) :
  Forall zero_cell d -> score_of q d = S754_nan.
Proof.
  intros Hd. unfold score_of. apply div_zero_or_nan.
  - apply dot_zero_r; [assumption | now left].
  - rewrite (norm_zero d Hd). apply zero_cell_mul_r. now left.
Qed.

Lemma score_of_zero_l (q d : ndarray) :
  Forall zero_cell q -> score_of q d = S754_nan.
Proof.
  intros Hq. unfold score_of. apply div_zero_or_nan.
  - apply dot_zero_l; [assumption | now left].
  - rewrite (norm_zero q Hq). apply zero_cell_mul_l. now left.
Qed.

Lemma np_array_float32_zero (values : list Float64.t) :
  Forall float_zero values -> Forall zero_cell (np_array_float32 values).
Proof.
  unfold np_array_float32. intros H. apply Forall_map.
  eapply Forall_impl; [|exact H].
  intros x [[] ->]; [right | left]; reflexivity.
Qed.

(** X13.  A query vector whose values are all [0.0] or [-0.0] gives every
    record the score NaN: every entry a successful local query returns for
    it has a NaN score. *)
Theorem zero_query_scores_nan (cfg : option Config) (env : Environment)
    (dbs : databases) (collection_name : string) (vector : list Float64.t)
    (top_k : Z) (results : list match_result) :
  let self := __init__ "local" cfg env in
  Forall float_zero vector ->
  fst (query self dbs collection_name vector top_k) = Return results ->
  Forall (fun e => res_score e = S754_nan) results.
Proof.
  intros self Hzero. subst self. local_query scored Hscored.
  intros H. injection H as <-.
  apply Forall_forall. intros e He.
  apply slice_to_incl in He.
  apply (Permutation_in _ (list_sort_perm score_lt true scored)) in He.
  destruct (scored_In _ _ _ _ Hscored He) as (r & _ & Hs).
  apply score_row_inv in Hs. destruct Hs as (db_vec & _ & ->).
  cbn [res_score]. now apply score_of_zero_l, np_array_float32_zero.
Qed.

Lemma zero_query_scores_nan_witness :
  Forall (fun e => res_score e = S754_nan)
         [entry "a" S754_nan; entry "b" S754_nan; entry "c" S754_nan].
Proof.
  apply (zero_query_scores_nan None plain_environment ranking_store "docs"
           [S754_zero false; S754_zero true; S754_zero false] 3).
  - repeat constructor; eexists; reflexivity.
  - vm_compute. reflexivity.
Defined.

(** X14.  A record whose values are all [0.0] or [-0.0] is scored NaN by
    every query: after it is upserted, any entry a successful local query
    returns under its id has a NaN score. *)
Theorem zero_record_scores_nan (cfg : option Config) (env : Environment)
    (dbs : databases) (collection_name : string) (pre post : list vec) (v : vec)
    (vector : list Float64.t) (top_k : Z) (results : list match_result) :
  let self := __init__ "local" cfg env in
  let dbs' := snd (upsert self dbs collection_name (pre ++ v :: post)) in
  Forall float_zero (vec_values v) ->
  Forall (fun u => vec_id u <> vec_id v) post ->
  fst (query self dbs' collection_name vector top_k) = Return results ->
  forall e, In e results -> res_id e = vec_id v -> res_score e = S754_nan.
Proof.
  intros self dbs' Hzero Hpost. subst dbs' self.
  assert (Hrows : filter (fun r => String.eqb (row_id r) (vec_id v))
                    (select_collection
                       (snd (upsert (__init__ "local" cfg env) dbs collection_name
                               (pre ++ v :: post))
                            (db_path (config (__init__ "local" cfg env))))
                       collection_name)
                  = [row_of_vec collection_name v]).
  { rewrite upsert_local. cbn [snd]. rewrite write_db_same.
    rewrite fold_left_app. cbn [fold_left].
    rewrite rows_of_id_insert_many by exact Hpost.
    apply rows_of_id_insert_same. }
  revert Hrows. set (dbs' := snd (upsert _ _ _ _)). intros Hrows.
  local_query scored Hscored.
  intros H e He Hid. injection H as <-.
  apply slice_to_incl in He.
  apply (Permutation_in _ (list_sort_perm score_lt true scored)) in He.
  destruct (scored_In _ _ _ _ Hscored He) as (r & Hr & Hs).
  apply score_row_inv in Hs. destruct Hs as (db_vec & Hb & ->).
  cbn [res_id res_score] in *.
  assert (Hin : In r [row_of_vec collection_name v]).
  { rewrite <- Hrows. apply filter_In. split; [assumption|].
    rewrite Hid. apply String.eqb_refl. }
  destruct Hin as [<- | []].
  cbn [row_of_vec row_vector] in Hb.
  rewrite frombuffer_tobytes in Hb by apply np_array_float32_range.
  injection Hb as <-.
  now apply score_of_zero_r, np_array_float32_zero.
Qed.

Lemma zero_record_scores_nan_witness :
  res_score (entry "b" S754_nan) = S754_nan.
Proof.
  apply (zero_record_scores_nan None plain_environment no_databases "docs"
           [record "a" [1; 1]] [record "c" [1; 0]] (record "b" [0; 0])
           (floats [1; 0]) 3
           [entry "a" (S754_finite false 6369051563524096 (-53));
            entry "b" S754_nan;
            entry "c" (S754_finite false 4503599627370496 (-52))]).
  - repeat constructor; eexists; reflexivity.
  - repeat constructor. discriminate.
  - vm_compute. reflexivity.
  - right. now left.
  - reflexivity.
Defined.

(** ** Symmetry of the score *)

Lemma SFmul_comm (prec emax : Z) (x y : spec_float) :
  SFmul prec emax x y = SFmul prec emax y x.
Proof.
  destruct x as [sx|sx| |sx mx ex], y as [sy|sy| |sy my ey]; cbn;
    try reflexivity; try (now rewrite xorb_comm).
  now rewrite xorb_comm, Pos.mul_comm, Z.add_comm.
Qed.

Lemma float32_mul_comm (a b : Float32.t) : Float32.mul a b = Float32.mul b a.
Proof. unfold Float32.mul. now rewrite SFmul_comm. Qed.

Lemma dot_kernel_comm (a b : ndarray) : dot_kernel a b = dot_kernel b a.
Proof.
  unfold dot_kernel. generalize Float32.zero as acc. revert b.
  induction a as [|x a IH]; intros [|y b] acc; try reflexivity.
  cbn [combine fold_left fst snd]. now rewrite float32_mul_comm, IH.
Qed.

(** X15.  The score is symmetric: [query] gives a stored vector [b] against
    the query vector [a] the same result, float32 score or [ValueError], as
    it gives [a] against [b]. *)
Theorem cosine_score_symmetric (a b : ndarray) :
  cosine_score a b = cosine_score b a.
Proof.
  unfold cosine_score, np_dot. rewrite (Nat.eqb_sym (List.length b)).
  destruct (Nat.eqb (List.length a) (List.length b)); [|reflexivity].
  cbn [bind].
  now rewrite dot_kernel_comm, (float32_mul_comm (np_linalg_norm a)).
Qed.

(** ** Reading blobs *)

Lemma frombuffer_inverse (buf : list byte) :
  forall cells, frombuffer buf = Return cells -> tobytes cells = buf.
Proof.
  enough (H : forall l : list byte,
             (List.length l <= List.length buf)%nat ->
             forall cells, frombuffer l = Return cells -> tobytes cells = l)
    by (apply H; lia).
  induction buf as [|b buf IH]; intros l Hl cells Hc.
  - destruct l; [|simpl in Hl; lia]. now injection Hc as <-.
  - destruct l as [|b0 [|b1 [|b2 [|b3 rest]]]]; try discriminate.
    + now injection Hc as <-.
    + cbn [frombuffer] in Hc.
      destruct (frombuffer rest) as [cells'| |] eqn:E; try discriminate.
      cbn [bind] in Hc. injection Hc as <-.
      unfold tobytes. cbn [flat_map]. fold (tobytes cells').
      rewrite (IH rest) with (cells := cells');
        [| cbn [List.length] in Hl; lia | assumption].
      now rewrite (split_le_combine' [b0; b1; b2; b3] 4 eq_refl).
Qed.

(** X16.  [np.frombuffer] on a stored blob succeeds exactly when the blob is
    a whole number of four-byte cells; it then returns one cell per four
    bytes, and the bytes of those cells are the blob again.  On any other
    length it raises [ValueError]. *)
Theorem frombuffer_exact (buf : list byte) :
  (forall n, List.length buf = (4 * n)%nat ->
             exists cells,
               frombuffer buf = Return cells /\
               List.length cells = n /\
               tobytes cells = buf) /\
  ((forall n, List.length buf <> (4 * n)%nat) ->
   frombuffer buf = Raise ValueError).
Proof.
  destruct (frombuffer_cases buf) as [(cells & E & Hlen) | (E & Hn)]; split.
  - intros n Hbuf. exists cells.
    split; [assumption|]. split; [lia|]. now apply frombuffer_inverse.
  - intros H. now destruct (H (List.length cells)).
  - intros n Hbuf. now destruct (Hn n).
  - intros _. exact E.
Qed.

Lemma frombuffer_exact_witness :
  (exists cells,
      frombuffer [Byte.x00; Byte.x00; Byte.x80; Byte.x3f] = Return cells /\
      List.length cells = 1%nat /\
      tobytes cells = [Byte.x00; Byte.x00; Byte.x80; Byte.x3f]) /\
  frombuffer [Byte.x00; Byte.x00; Byte.x80] = Raise ValueError.
Proof.
  split.
  - apply (frombuffer_exact [Byte.x00; Byte.x00; Byte.x80; Byte.x3f]).
    reflexivity.
  - apply (frombuffer_exact [Byte.x00; Byte.x00; Byte.x80]).
    intros n. cbn [List.length]. lia.
Defined.

(** ** Connectors and database files *)


